(** * megaconvert: job orchestration and page algebra

    A shallow embedding of the parts of the megaconvert server that the
    specification talks about:

    - [DocumentConverter]: [parsePageRange], [subsetPdf], [splitPdf]
      (server/services/documentConverter.js);
    - [Router]: [detectCategory], the job record, the [progress] callback
      and the phases of [runConversionJob] (server/routes/converter.js);
    - [Pool]: the sliding-window worker pool [runLimited]
      (server/services/imageConverter.js) and its inlined twin in
      [pdfToImagesViaLibreOffice].

    Conventions.  JavaScript numbers that hold page numbers, counters and
    millisecond timestamps are integers here ([Z]); the quotients of the ETA
    formula are exact rationals ([Q]).  JavaScript strings are [string]s of
    8-bit characters, so that [trim] and the regular-expression class [\s]
    range over the ASCII white space characters. *)

From Stdlib Require Import Ascii String QArith Qround Qminmax Lqa.
From stdpp Require Import gmap strings list sorting.

#[local] Open Scope Z_scope.
#[local] Set Warnings "-clear-no-such-hyp".

(** Outcome of a call that may throw: the value, or the message of the
    [Error] that was thrown. *)
Inductive Result (A : Type) : Type :=
  | Ok (a : A)
  | Throw (msg : string).
Arguments Ok {A} a.
Arguments Throw {A} msg.

(** ** Strings as the converters use them *)
Module JsString.

Definition code (c : ascii) : Z := Z.of_nat (nat_of_ascii c).

(** [\s] and the characters removed by [String.prototype.trim]. *)
Definition is_space (c : ascii) : bool :=
  bool_decide (code c = 32) || bool_decide (9 ≤ code c ≤ 13).

(** [\d] *)
Definition is_digit (c : ascii) : bool :=
  bool_decide (48 ≤ code c ≤ 57).

Definition digit_value (c : ascii) : Z := code c - 48.

Fixpoint drop_while (f : ascii → bool) (s : list ascii) : list ascii :=
  match s with
  | [] => []
  | c :: r => if f c then drop_while f r else s
  end.

Fixpoint take_while (f : ascii → bool) (s : list ascii) : list ascii :=
  match s with
  | [] => []
  | c :: r => if f c then c :: take_while f r else []
  end.

(** [s.trim()] *)
Definition trim (s : list ascii) : list ascii :=
  reverse (drop_while is_space (reverse (drop_while is_space s))).

(** [s.split(',')]: never empty, [[""]] for the empty string. *)
Fixpoint split_comma (s : list ascii) : list (list ascii) :=
  match s with
  | [] => [[]]
  | c :: r =>
      if bool_decide (c = ","%char) then [] :: split_comma r
      else match split_comma r with
           | h :: t => (c :: h) :: t
           | [] => [[c]]
           end
  end.

(** [.filter(Boolean)] on an array of strings keeps the non-empty ones. *)
Definition non_empty (s : list ascii) : bool :=
  match s with [] => false | _ => true end.

(** Value of a run of decimal digits, most significant first. *)
Definition digits_value (ds : list ascii) : Z :=
  fold_left (fun acc d => 10 * acc + digit_value d) ds 0.

(** [parseInt(s, 10)]: leading white space, an optional sign, then the
    longest run of digits; whatever follows is ignored.  [None] is [NaN]. *)
Definition parseInt (s : list ascii) : option Z :=
  let s1 := drop_while is_space s in
  let '(neg, s2) :=
    match s1 with
    | c :: r =>
        if bool_decide (c = "-"%char) then (true, r)
        else if bool_decide (c = "+"%char) then (false, r)
        else (false, s1)
    | [] => (false, s1)
    end in
  match take_while is_digit s2 with
  | [] => None
  | ds => Some (if neg then - digits_value ds else digits_value ds)
  end.

(** A non-empty run of decimal digits: what [\d+] matches. *)
Definition digit_run (ds : list ascii) : Prop :=
  ds ≠ [] ∧ Forall (fun c => is_digit c = true) ds.

(** A string of white space only (the empty string included). *)
Definition blank (s : string) : Prop :=
  Forall (fun c => is_space c = true) (list_ascii_of_string s).

(** ASCII [toLowerCase]. *)
Definition lower_char (c : ascii) : ascii :=
  if bool_decide (65 ≤ code c ≤ 90)
  then ascii_of_nat (nat_of_ascii c + 32) else c.

Definition toLowerCase (s : list ascii) : list ascii := lower_char <$> s.

End JsString.

(** ** The converters' format tables *)
Module Formats.
#[local] Open Scope string_scope.

(** server/services/audioConverter.js *)
Definition audio_SUPPORTED_INPUTS : gset string :=
  list_to_set ["mp3"; "wav"; "ogg"; "m4a"; "flac"; "aac"; "wma"; "aiff"; "opus"].
(** server/services/imageConverter.js *)
Definition image_SUPPORTED_INPUTS : gset string :=
  list_to_set ["jpg"; "jpeg"; "png"; "webp"; "gif"; "bmp"; "tif"; "tiff"; "svg"; "ico"; "heic"].
Definition image_SUPPORTED_OUTPUTS : gset string :=
  list_to_set ["jpg"; "jpeg"; "png"; "webp"; "gif"; "bmp"; "tif"; "tiff"; "ico"; "avif"].
(** server/services/documentConverter.js *)
Definition document_SUPPORTED_INPUTS : gset string :=
  list_to_set ["pdf"; "docx"; "doc"; "txt"; "rtf"; "odt"; "html"; "htm"; "epub"].
(** server/services/archiveConverter.js *)
Definition archive_SUPPORTED_INPUTS : gset string :=
  list_to_set ["zip"; "7z"; "rar"; "tar"; "gz"; "bz2"; "xz"].
(** server/services/presentationConverter.js *)
Definition presentation_SUPPORTED_INPUTS : gset string :=
  list_to_set ["pptx"; "ppt"; "odp"; "key"; "pdf"].
(** server/services/fontConverter.js *)
Definition font_SUPPORTED_INPUTS : gset string :=
  list_to_set ["ttf"; "otf"; "woff"; "woff2"; "eot"].
(** server/services/ebookConverter.js *)
Definition ebook_SUPPORTED_INPUTS : gset string :=
  list_to_set ["epub"; "mobi"; "azw3"; "pdf"; "txt"; "html"].

End Formats.

(** ** Node's [path.extname] (POSIX flavour) *)
Module NodePath.
Import JsString.

Record Scan : Type := mkScan {
  startDot : option nat;
  startPart : nat;
  end_ : option nat;
  matchedSlash : bool;
  preDotState : Z;
  stopped : bool
}.

(** One iteration of the backwards loop over the characters of the path. *)
Definition scan_step (st : Scan) (ic : nat * ascii) : Scan :=
  let '(i, c) := ic in
  if stopped st then st
  else if bool_decide (c = "/"%char) then
    if matchedSlash st then st
    else mkScan (startDot st) (S i) (end_ st) (matchedSlash st) (preDotState st) true
  else
    let st1 :=
      match end_ st with
      | None => mkScan (startDot st) (startPart st) (Some (S i)) false (preDotState st) false
      | Some _ => st
      end in
    if bool_decide (c = "."%char) then
      match startDot st1 with
      | None => mkScan (Some i) (startPart st1) (end_ st1) (matchedSlash st1) (preDotState st1) false
      | Some _ =>
          if bool_decide (preDotState st1 = 1) then st1
          else mkScan (startDot st1) (startPart st1) (end_ st1) (matchedSlash st1) 1 false
      end
    else
      match startDot st1 with
      | Some _ => mkScan (startDot st1) (startPart st1) (end_ st1) (matchedSlash st1) (-1) false
      | None => st1
      end.

Definition extname (path : list ascii) : list ascii :=
  let st := fold_left scan_step (reverse (imap pair path))
              (mkScan None 0 None true 0 false) in
  match startDot st, end_ st with
  | Some sd, Some e =>
      if bool_decide (preDotState st = 0)
         || (bool_decide (preDotState st = 1)
             && bool_decide (S sd = e) && bool_decide (sd = S (startPart st)))
      then []
      else take (e - sd) (drop sd path)
  | _, _ => []
  end.

(** [path.extname(p).replace(/^\./, '').toLowerCase()]: the helper that
    the router calls [ext], the document converter [normalizeExt]. *)
Definition ext (p : string) : string :=
  let e := extname (list_ascii_of_string p) in
  let e := match e with
           | c :: r => if bool_decide (c = "."%char) then r else e
           | [] => e
           end in
  string_of_list_ascii (toLowerCase e).

End NodePath.

(** ** The sliding-window worker pool

    [runLimited(items, limit, mapper)] of server/services/imageConverter.js.
    The promise machinery is made explicit: a state holds the variables
    that the closures share ([results], [next], [active]), the indices whose
    mapper promise is still pending, and the state of the promise that
    [runLimited] returned.  The event loop runs one completion handler at a
    time, in any order of the pending indices. *)
Module Pool.
Section Pool.
Context {Item R : Type}.

(** How the promise [mapper(items[idx], idx)] eventually settles. *)
Inductive Outcome : Type :=
  | Fulfilled (res : R)
  | Rejected (err : string).

Record State : Type := mkState {
  results : list (option R);          (** [new Array(n)]: [None] is a hole *)
  next : nat;
  active : Z;
  in_flight : list nat;
  settled : option (Result (list (option R)))   (** [None]: still pending *)
}.

Variable items : list Item.
Variable limit : Z.
Variable mapper : Item → nat → Outcome.

(** [while (active < limit && next < items.length)
      { const idx = next++; active++; ... }];
    the loop runs at most [items.length - next] times. *)
Fixpoint launch_loop (fuel : nat) (s : State) : State :=
  match fuel with
  | O => s
  | S fuel' =>
      if bool_decide (active s < limit) && bool_decide (next s < length items)%nat
      then launch_loop fuel'
             (mkState (results s) (S (next s)) (active s + 1)
                      (in_flight s ++ [next s]) (settled s))
      else s
  end.

Definition launch (s : State) : State :=
  launch_loop (length items - next s) s.

(** [resolve] and [reject] only act on a pending promise. *)
Definition settle (v : Result (list (option R))) (s : State) : State :=
  match settled s with
  | None => mkState (results s) (next s) (active s) (in_flight s) (Some v)
  | Some _ => s
  end.

(** The [.then] handler:
    [results[idx] = res; active--;
     if (next >= items.length && active === 0) resolve(results);
     else launch();] *)
Definition on_fulfilled (idx : nat) (res : R) (s : State) : State :=
  let s1 := mkState (<[idx := Some res]> (results s)) (next s) (active s - 1)
                    (in_flight s) (settled s) in
  if bool_decide (length items ≤ next s1)%nat && bool_decide (active s1 = 0)
  then settle (Ok (results s1)) s1
  else launch s1.

(** The [.catch] handler: [reject(err)]. *)
Definition on_rejected (err : string) (s : State) : State :=
  settle (Throw err) s.

(** The mapper promise of [idx] settles and its handler runs. *)
Definition complete (idx : nat) (s : State) : option State :=
  if bool_decide (idx ∈ in_flight s) then
    match items !! idx with
    | Some item =>
        let s1 := mkState (results s) (next s) (active s)
                          (filter (fun i => i ≠ idx) (in_flight s)) (settled s) in
        Some match mapper item idx with
             | Fulfilled res => on_fulfilled idx res s1
             | Rejected err => on_rejected err s1
             end
    | None => None
    end
  else None.

(** The state in which [runLimited(items, limit, mapper)] returns its
    promise; the mapper comes in when a launched call settles
    ([complete]). *)
Definition runLimited : State :=
  launch (mkState (replicate (length items) None) 0 0 [] None).

(** One turn of the event loop. *)
Definition step (s s' : State) : Prop := ∃ idx, complete idx s = Some s'.

(** The call for index [k] has been launched and has settled. *)
Definition completed (s : State) (k : nat) : Prop :=
  (k < next s)%nat ∧ k ∉ in_flight s.

(** The call for index [k] settles with a failure. *)
Definition rejected (k : nat) : Prop :=
  ∃ item err, items !! k = Some item ∧ mapper item k = Rejected err.

(** The call for index [k] settles with the result [r]. *)
Definition fulfilled (k : nat) (r : R) : Prop :=
  ∃ item, items !! k = Some item ∧ mapper item k = Fulfilled r.

(** The number of calls that have settled, as an integer. *)
Definition settled_calls (s : State) : Z :=
  Z.of_nat (next s) - Z.of_nat (length (in_flight s)).

(** What holds of every state that the pool reaches. *)
Record Invariant (s : State) : Prop := mkInvariant {
  inv_next : (next s ≤ length items)%nat;
  inv_length : length (results s) = length items;
  inv_nodup : NoDup (in_flight s);
  inv_launched : ∀ i, i ∈ in_flight s → (i < next s)%nat;
  inv_active_lo : Z.of_nat (length (in_flight s)) ≤ active s;
  inv_active_hi : active s ≤ limit;
  inv_busy : (next s < length items)%nat → active s = limit;
  inv_done : ∀ k, completed s k →
             (∃ r, fulfilled k r ∧ results s !! k = Some (Some r)) ∨ rejected k;
  inv_result : ∀ k r, results s !! k = Some (Some r) → fulfilled k r;
  inv_failed : (∃ k, completed s k ∧ rejected k) →
               Z.of_nat (length (in_flight s)) < active s;
  inv_clean : (∀ k, completed s k → ¬ rejected k) →
              active s = Z.of_nat (length (in_flight s));
  inv_resolved : ∀ rs, settled s = Some (Ok rs) →
                 rs = results s ∧ in_flight s = [] ∧ next s = length items
                 ∧ ∀ k, completed s k → ¬ rejected k;
  inv_thrown : ∀ e, settled s = Some (Throw e) → ∃ k, completed s k ∧ rejected k;
  inv_live : settled s = None → (∀ k, completed s k → ¬ rejected k) →
             in_flight s ≠ [] ∨ items = []
}.

(** Completing the pending indices in the order [order]. *)
Fixpoint run (order : list nat) (s : State) : option State :=
  match order with
  | [] => Some s
  | idx :: rest =>
      match complete idx s with
      | Some s' => run rest s'
      | None => None
      end
  end.

End Pool.
Arguments Outcome : clear implicits.
Arguments State : clear implicits.

(** A worker that always succeeds, for the examples. *)
Definition suffix_worker (x : string) (i : nat) : Outcome string :=
  Fulfilled (x +:+ "!")%string.

(** A worker that fails on the item ["bad"], for the examples. *)
Definition picky_worker (x : string) (i : nat) : Outcome string :=
  if bool_decide (x = "bad"%string) then Rejected "no" else Fulfilled x.
End Pool.

(** ** server/services/documentConverter.js *)
Module DocumentConverter.
Import JsString.

(** The match of [/^(\d+)\s*-\s*(\d+)$/] against a chunk: the two captured
    digit runs.  The classes [\d], [\s] and [-] are pairwise disjoint, so
    the greedy left-to-right scan is the only possible match. *)
Definition match_range (chunk : list ascii) : option (list ascii * list ascii) :=
  let d1 := take_while is_digit chunk in
  let r1 := drop_while is_digit chunk in
  match d1, drop_while is_space r1 with
  | _ :: _, c :: r2 =>
      if bool_decide (c = "-"%char) then
        let r3 := drop_while is_space r2 in
        let d2 := take_while is_digit r3 in
        match d2, drop_while is_digit r3 with
        | _ :: _, [] => Some (d1, d2)
        | _, _ => None
        end
      else None
  | _, _ => None
  end.

(** A JavaScript [Set] of numbers: insertion order, no duplicates. *)
Definition set_add (p : Z) (set : list Z) : list Z :=
  if decide (p ∈ set) then set else set ++ [p].

(** [p >= 1 && (!totalPages || p <= totalPages)] *)
Definition page_ok (totalPages p : Z) : bool :=
  bool_decide (1 ≤ p) && (bool_decide (totalPages = 0) || bool_decide (p ≤ totalPages)).

(** [chunks]: [String(rangeStr).split(',').map(s => s.trim()).filter(Boolean)] *)
Definition chunks (rangeStr : list ascii) : list (list ascii) :=
  filter (fun s => non_empty s = true) (trim <$> split_comma rangeStr).

(** [if (p >= 1 && (!totalPages || p <= totalPages)) set.add(p)] *)
Definition add_page (totalPages : Z) (set : list Z) (p : Z) : list Z :=
  if page_ok totalPages p then set_add p set else set.

(** One iteration of the [for (const chunk of chunks)] loop.  In the
    second branch [Number.isFinite(p)] fails exactly when [parseInt] gave
    [NaN]. *)
Definition add_chunk (totalPages : Z) (set : list Z) (chunk : list ascii) : list Z :=
  match match_range chunk with
  | Some (m1, m2) =>
      let start := default 0 (parseInt m1) in
      let end_ := default 0 (parseInt m2) in
      let '(start, end_) := if bool_decide (start > end_) then (end_, start) else (start, end_) in
      fold_left (add_page totalPages) (seqZ start (end_ - start + 1)) set
  | None =>
      match parseInt chunk with
      | Some p => add_page totalPages set p
      | None => set
      end
  end.

(** [Array.from(set).sort((a, b) => a - b)] *)
Definition sort_numeric (l : list Z) : list Z := merge_sort Z.le l.

Definition parsePageRange_chars (rangeStr : list ascii) (totalPages : Z) : list Z :=
  if non_empty (trim rangeStr) then
    sort_numeric (fold_left (add_chunk totalPages) (chunks rangeStr) [])
  else [].

Definition parsePageRange (rangeStr : string) (totalPages : Z) : list Z :=
  parsePageRange_chars (list_ascii_of_string rangeStr) totalPages.

(** The pages that one chunk stands for, before the bounds are applied:
    the closed interval between the two numbers of a [start-end] chunk,
    whichever of them is larger, or the number that [parseInt] reads from
    the chunk. *)
Definition chunk_page (chunk : list ascii) (p : Z) : Prop :=
  match match_range chunk with
  | Some (m1, m2) =>
      Z.min (default 0 (parseInt m1)) (default 0 (parseInt m2)) ≤ p
      ≤ Z.max (default 0 (parseInt m1)) (default 0 (parseInt m2))
  | None => parseInt chunk = Some p
  end.

(** *** Documents

    A loaded [PDFDocument] is the list of its pages; [Page] stands for
    whatever a page holds. *)
Section Documents.
Context {Page : Type}.

(** pdf-lib's [dstDoc.copyPages(srcDoc, indices)] reads
    [srcDoc.getPages()[i]] for every index and throws a [TypeError] on an
    index that names no page. *)
Definition copyPages (srcDoc : list Page) (indices : list Z) : Result (list Page) :=
  match mapM (fun i => if bool_decide (0 ≤ i) then srcDoc !! Z.to_nat i else None) indices with
  | Some copied => Ok copied
  | None => Throw "TypeError: Cannot read properties of undefined"
  end.

(** [subsetPdf(inputPdf, outputPdf, pages)]: the pages written to
    [outputPdf]. *)
Definition subsetPdf (srcDoc : list Page) (pages : list Z) : Result (list Page) :=
  let total := Z.of_nat (length srcDoc) in
  let selected :=
    match pages with
    | [] => (fun i => i + 1) <$> seqZ 0 total
    | _ => pages
    end in
  let zeroBased := filter (fun i => 0 ≤ i ∧ i < total) ((fun p => p - 1) <$> selected) in
  copyPages srcDoc zeroBased.

(** The [ranges] argument of [splitPdf]: an array of specs, or one
    comma-separated string. *)
Inductive Ranges : Type :=
  | RangeArray (specs : list string)
  | RangeString (spec : string).

(** [Array.isArray(ranges) ? ranges
     : String(ranges || '').split(',').map(s => s.trim()).filter(Boolean)] *)
Definition rangeList (ranges : Ranges) : list (list ascii) :=
  match ranges with
  | RangeArray specs => list_ascii_of_string <$> specs
  | RangeString spec => chunks (list_ascii_of_string spec)
  end.

(** The [for (const r of rangeList)] loop: [idx] is the number of the next
    part, [outputs] the parts written so far, each with its number (the
    file [{base}_part{idx}.pdf]) and its pages. *)
Fixpoint split_loop (srcDoc : list Page) (rs : list (list ascii)) (idx : Z)
    (outputs : list (Z * list Page)) : Result (list (Z * list Page)) :=
  match rs with
  | [] => Ok outputs
  | r :: rest =>
      match parsePageRange_chars r (Z.of_nat (length srcDoc)) with
      | [] => split_loop srcDoc rest idx outputs
      | pages =>
          match subsetPdf srcDoc pages with
          | Ok part => split_loop srcDoc rest (idx + 1) (outputs ++ [(idx, part)])
          | Throw e => Throw e
          end
      end
  end.

Definition splitPdf (srcDoc : list Page) (ranges : Ranges) : Result (list (Z * list Page)) :=
  match rangeList ranges with
  | [] => Throw "split: no ranges provided"
  | rs => split_loop srcDoc rs 1 []
  end.

(** The first loop of [pdfToImagesViaLibreOffice]: one single-page
    document per page, [{ page: p, file }]. *)
Definition make_singles (srcDoc : list Page) : Result (list (Z * list Page)) :=
  fold_left (fun acc p =>
               match acc with
               | Ok singles =>
                   match subsetPdf srcDoc [p] with
                   | Ok single => Ok (singles ++ [(p, single)])
                   | Throw e => Throw e
                   end
               | Throw e => Throw e
               end)
            (seqZ 1 (Z.of_nat (length srcDoc))) (Ok []).

(** The pool of [pdfToImagesViaLibreOffice]: the same [results], [next],
    [active] and [launch] as [runLimited], over [singles] with limit
    [concurrency].  The state is the one in which the pool's promise is
    awaited; its workers are [page_worker render], where
    [render page file] is how the conversion of one single-page file and
    the renaming of its image settle: with the target path
    [{base}_page-{page}.{ext}], or with a failure. *)
Definition page_worker (render : Z → list Page → Pool.Outcome string)
    (single : Z * list Page) (i : nat) : Pool.Outcome string :=
  render single.1 single.2.

Definition pdfToImagesViaLibreOffice (srcDoc : list Page) (concurrency : Z)
    : Result (Pool.State string) :=
  match make_singles srcDoc with
  | Ok singles => Ok (Pool.runLimited singles concurrency)
  | Throw e => Throw e
  end.

(** The page numbers that name a page of [srcDoc]. *)
Definition in_document (srcDoc : list Page) (p : Z) : Prop :=
  1 ≤ p ≤ Z.of_nat (length srcDoc).

#[global] Instance in_document_dec srcDoc p : Decision (in_document srcDoc p).
Proof. unfold in_document. apply _. Defined.

(** The specs whose resolution against [srcDoc] is not empty. *)
Definition resolves (srcDoc : list Page) (r : list ascii) : Prop :=
  parsePageRange_chars r (Z.of_nat (length srcDoc)) ≠ [].

#[global] Instance resolves_dec srcDoc r : Decision (resolves srcDoc r).
Proof. unfold resolves. apply _. Defined.

End Documents.

End DocumentConverter.

(** ** server/services/imageConverter.js *)
Module ImageConverter.
Import JsString Formats.

(** [normalizeFormat(fmt)]: [String(fmt || '').trim().toLowerCase()] *)
Definition normalizeFormat (fmt : string) : string :=
  string_of_list_ascii (toLowerCase (trim (list_ascii_of_string fmt))).

(** [validateFormats(inputPath, outputFormat)] for a batch. *)
Definition validateFormats (inputs : list string) (outputFormat : string) : Result unit :=
  if bool_decide (normalizeFormat outputFormat ∈ image_SUPPORTED_OUTPUTS) then
    if forallb (fun p => bool_decide (NodePath.ext p ∈ image_SUPPORTED_INPUTS)) inputs
    then Ok ()
    else Throw "Unsupported input format"
  else Throw "Unsupported output format".

(** [options.concurrency && Number.isFinite(options.concurrency)
     ? Math.max(1, options.concurrency) : 4] *)
Definition batch_concurrency (option_concurrency : option Z) : Z :=
  match option_concurrency with
  | Some c => if bool_decide (c = 0) then 4 else Z.max 1 c
  | None => 4
  end.

(** [convertImage(inputPath, outputFormat, options)] on an array of
    inputs, up to the [await] of the pool.  The pool's mapper is
    [(p) => convertOne(p, outputFormat, options)]: [batch_mapper
    convertOne], where [convertOne p] is how the conversion of one file
    settles. *)
Definition batch_mapper {R : Type} (convertOne : string → Pool.Outcome R)
    (p : string) (i : nat) : Pool.Outcome R := convertOne p.

Definition convertImage_batch {R : Type} (inputs : list string) (outputFormat : string)
    (option_concurrency : option Z) : Result (Pool.State R) :=
  match validateFormats inputs outputFormat with
  | Ok _ => Ok (Pool.runLimited inputs (batch_concurrency option_concurrency))
  | Throw e => Throw e
  end.

End ImageConverter.

(** ** server/routes/converter.js *)
Module Router.
Import JsString Formats.

Inductive Category : Type :=
  | audio | image | document | archive | presentation | font | ebook | unknown.

#[global] Instance Category_eq_dec : EqDecision Category.
Proof. solve_decision. Defined.

Definition ext (p : string) : string := NodePath.ext p.

(** [set.has(e)] *)
Definition has (set : gset string) (e : string) : bool := bool_decide (e ∈ set).

Definition detectCategory (filePath : string) : Category :=
  let e := ext filePath in
  if has audio_SUPPORTED_INPUTS e then audio
  else if has image_SUPPORTED_INPUTS e then image
  else if has document_SUPPORTED_INPUTS e then document
  else if has archive_SUPPORTED_INPUTS e then archive
  else if has presentation_SUPPORTED_INPUTS e then presentation
  else if has font_SUPPORTED_INPUTS e then font
  else if has ebook_SUPPORTED_INPUTS e then ebook
  else unknown.

(** The table that each category's converter exports, and the place of
    the category in the chain of tests of [detectCategory]. *)
Definition SUPPORTED_INPUTS (c : Category) : gset string :=
  match c with
  | audio => audio_SUPPORTED_INPUTS
  | image => image_SUPPORTED_INPUTS
  | document => document_SUPPORTED_INPUTS
  | archive => archive_SUPPORTED_INPUTS
  | presentation => presentation_SUPPORTED_INPUTS
  | font => font_SUPPORTED_INPUTS
  | ebook => ebook_SUPPORTED_INPUTS
  | unknown => ∅
  end.

Definition priority (c : Category) : nat :=
  match c with
  | audio => 0 | image => 1 | document => 2 | archive => 3
  | presentation => 4 | font => 5 | ebook => 6 | unknown => 7
  end.

(** *** Jobs *)

Inductive Status : Type := queued | running | completed | failed | cancelled.

#[global] Instance Status_eq_dec : EqDecision Status.
Proof. solve_decision. Defined.

Record Meta : Type := mkMeta {
  category : Category;
  outputFormat : string;
  batchId : option string
}.

Record Job : Type := mkJob {
  id : string;
  status : Status;
  progress : Z;
  etaSeconds : option Z;
  inputPath : option string;
  outputPath : option string;
  error : option string;
  meta : Meta;
  createdAt : Z
}.

Definition set_status (v : Status) (j : Job) : Job :=
  mkJob (id j) v (progress j) (etaSeconds j) (inputPath j) (outputPath j) (error j) (meta j) (createdAt j).
Definition set_progress (v : Z) (j : Job) : Job :=
  mkJob (id j) (status j) v (etaSeconds j) (inputPath j) (outputPath j) (error j) (meta j) (createdAt j).
Definition set_etaSeconds (v : option Z) (j : Job) : Job :=
  mkJob (id j) (status j) (progress j) v (inputPath j) (outputPath j) (error j) (meta j) (createdAt j).
Definition set_inputPath (v : option string) (j : Job) : Job :=
  mkJob (id j) (status j) (progress j) (etaSeconds j) v (outputPath j) (error j) (meta j) (createdAt j).
Definition set_outputPath (v : option string) (j : Job) : Job :=
  mkJob (id j) (status j) (progress j) (etaSeconds j) (inputPath j) v (error j) (meta j) (createdAt j).
Definition set_error (v : option string) (j : Job) : Job :=
  mkJob (id j) (status j) (progress j) (etaSeconds j) (inputPath j) (outputPath j) v (meta j) (createdAt j).

(** The job objects and the [jobs] map.  Every job object lives in [heap]
    under its id from [newJob] on; [registered] holds the keys of the
    [jobs] map.  A closure that captured the object ([const job =
    jobs.get(jobId)]) keeps reaching it through [heap] after
    [jobs.delete(id)]. *)
Record Store : Type := mkStore {
  heap : gmap string Job;
  registered : gset string
}.

Definition empty_store : Store := mkStore ∅ ∅.

(** [jobs.has(id)] *)
Definition jobs_has (jobId : string) (st : Store) : bool :=
  bool_decide (jobId ∈ registered st).

(** [jobs.get(id)] *)
Definition jobs_get (jobId : string) (st : Store) : option Job :=
  if jobs_has jobId st then heap st !! jobId else None.

(** An assignment to fields of the job object [jobId]. *)
Definition update_job (jobId : string) (f : Job → Job) (st : Store) : Store :=
  mkStore (alter f jobId (heap st)) (registered st).

(** [newJob(meta)], with the UUID and the clock reading it draws. *)
Definition newJob (uuid : string) (now : Z) (m : Meta) (st : Store) : Store :=
  mkStore (<[uuid := mkJob uuid queued 0 None None None None m now]> (heap st))
          ({[uuid]} ∪ registered st).

(** [POST /api/convert] up to the response: [newJob] and
    [job.inputPath = inputPath]. *)
Definition submit (uuid : string) (now : Z) (filePath fmt : string) (st : Store) : Store :=
  update_job uuid (set_inputPath (Some filePath))
    (newJob uuid now (mkMeta (detectCategory filePath) fmt None) st).

Inductive CancelResponse : Type :=
  | Cancel404             (** Job not found *)
  | Cancel400             (** Job already finished *)
  | Cancel200 (s : Status).

(** [DELETE /api/cancel/:jobId] *)
Definition cancel (jobId : string) (st : Store) : Store * CancelResponse :=
  match jobs_get jobId st with
  | None => (st, Cancel404)
  | Some job =>
      if bool_decide (status job = completed) || bool_decide (status job = failed)
      then (st, Cancel400)
      else (update_job jobId (set_status cancelled) st, Cancel200 cancelled)
  end.

(** [GET /api/download/:jobId] through to the [close] of the stream:
    for a completed job with an output path, [jobs.delete(job.id)];
    otherwise the request is refused and nothing changes. *)
Definition download (jobId : string) (st : Store) : Store :=
  match jobs_get jobId st with
  | Some job =>
      if bool_decide (status job = completed)
         && bool_decide (outputPath job ≠ None ∧ outputPath job ≠ Some ""%string)
      then mkStore (heap st) (registered st ∖ {[jobId]})
      else st
  | None => st
  end.

(** [Math.round]: the nearest integer, ties upwards. *)
Definition Math_round (x : Q) : Z := Qfloor (x + (1 # 2))%Q.

(** [Math.max(0, Math.min(100, Number(p) || 0))] on a number [p] *)
Definition clamp_percent (p : Z) : Z := Z.max 0 (Z.min 100 p).

(** The [progress] closure of [runConversionJob]; [started] is the clock
    reading it captured, [now] the reading of [Date.now()] in this call. *)
Definition progress_cb (jobId : string) (started now p : Z) (st : Store) : Store :=
  if negb (jobs_has jobId st) then st
  else
    let prog := clamp_percent p in
    let elapsed : Q := (inject_Z (now - started) / 1000)%Q in
    let rate : option Q :=
      if bool_decide (prog > 0) then Some (elapsed / (inject_Z prog / 100))%Q else None in
    let eta : option Z :=
      match rate with
      | Some r => if Qeq_bool r 0 then None else Some (Z.max 0 (Math_round (r - elapsed)%Q))
      | None => None
      end in
    update_job jobId (fun j => set_etaSeconds eta (set_progress prog j)) st.

(** The elapsed time in seconds, and the extrapolation of the
    specification: [max(0, round(elapsed / (p/100) - elapsed))]. *)
Definition elapsed_seconds (started now : Z) : Q := (inject_Z (now - started) / 1000)%Q.

Definition eta_formula (elapsed : Q) (p : Z) : Z :=
  Z.max 0 (Math_round (elapsed / (inject_Z p / 100) - elapsed)%Q).

(** What a converter resolves with: a path, an object that may carry
    [outputPath] or [pdfPath], or an array of paths. *)
Inductive ConvResult : Type :=
  | ResString (path : string)
  | ResObject (outputPath_ pdfPath_ : option string)
  | ResArray (paths : list string).

Definition truthy (o : option string) : option string :=
  match o with
  | Some s => if bool_decide (s = ""%string) then None else Some s
  | None => None
  end.

(** [typeof result === 'string' ? result
     : result?.outputPath || result?.pdfPath || null] *)
Definition result_path (r : ConvResult) : option string :=
  match r with
  | ResString s => Some s
  | ResObject o p => match truthy o with Some s => Some s | None => truthy p end
  | ResArray _ => None
  end.

(** The head of [runConversionJob]: the guard and the switch to
    [running].  [None]: the routine returned at the guard.  The clock
    reading [started] is taken right after. *)
Definition run_start (jobId : string) (st : Store) : option Store :=
  match jobs_get jobId st with
  | None => None
  | Some job =>
      if bool_decide (status job = cancelled) then None
      else Some (update_job jobId (fun j => set_progress 0 (set_status running j)) st)
  end.

(** The milestone that the [switch] reports before it awaits a converter
    that takes no [onProgress]. *)
Definition milestone_before (c : Category) : option Z :=
  match c with
  | image | font => Some 10
  | document | presentation | ebook => Some 5
  | audio | archive | unknown => None
  end.

Definition run_before_await (jobId : string) (c : Category) (started now : Z)
    (st : Store) : Store :=
  match milestone_before c with
  | Some p => progress_cb jobId started now p st
  | None => st
  end.

(** The [catch] block; the job object is looked up in the map again. *)
Definition run_catch (jobId : string) (message : string) (st : Store) : Store :=
  if negb (jobs_has jobId st) then st
  else update_job jobId
         (fun j => set_etaSeconds None
                     (set_error (Some (if bool_decide (message = ""%string)
                                       then "Conversion failed"%string else message))
                                (set_status failed j))) st.

(** The rest of the [try] block once the awaited converter has settled.
    A category with no converter throws at the [default] case without
    awaiting. *)
Definition run_settle (jobId : string) (c : Category) (started now : Z)
    (outcome : Result ConvResult) (st : Store) : Store :=
  match c, outcome with
  | unknown, _ => run_catch jobId "Unsupported file type" st
  | _, Throw message => run_catch jobId message st
  | _, Ok result =>
      let st1 :=
        match milestone_before c with
        | Some _ => progress_cb jobId started now 100 st
        | None => st
        end in
      match heap st1 !! jobId with
      | Some job =>
          if bool_decide (status job = cancelled) then st1
          else update_job jobId
                 (fun j => set_etaSeconds (Some 0)
                             (set_progress 100
                                (set_status completed
                                   (set_outputPath (result_path result) j)))) st1
      | None => st1
      end
  end.

(** What can happen to a job between the start of its run and the end:
    the converter reports progress through [onProgress], a cancel request
    is served, the awaited converter settles, the output is downloaded.
    Each is one uninterrupted turn of the event loop. *)
Inductive Event : Type :=
  | EvProgress (now p : Z)
  | EvCancel
  | EvSettle (now : Z) (outcome : Result ConvResult)
  | EvDownload.

Definition apply_event (jobId : string) (c : Category) (started : Z)
    (st : Store) (ev : Event) : Store :=
  match ev with
  | EvProgress now p => progress_cb jobId started now p st
  | EvCancel => fst (cancel jobId st)
  | EvSettle now outcome => run_settle jobId c started now outcome st
  | EvDownload => download jobId st
  end.

(** [runConversionJob(jobId, category, ...)] together with what happens
    while it is suspended: the run starts at clock reading [started],
    reports its first milestone at [now0], and the events [evs] follow. *)
Definition runConversionJob (jobId : string) (c : Category) (started now0 : Z)
    (evs : list Event) (st : Store) : Store :=
  match run_start jobId st with
  | None => st
  | Some st1 =>
      fold_left (apply_event jobId c started) evs
                (run_before_await jobId c started now0 st1)
  end.


(** A store with one job, [j1], submitted at clock reading 1000. *)
Definition one_job (filePath fmt : string) : Store :=
  submit "j1" 1000 filePath fmt empty_store.

(** The fields of a job that the status endpoint reports, but for [id]. *)
Definition report (j : Job) : Status * Z * option Z * option string * option string :=
  (status j, progress j, etaSeconds j, outputPath j, error j).

End Router.

(** ** More of server/services/documentConverter.js

    The helpers around the page algebra and [convertDocument], the caller of
    [parsePageRange], [subsetPdf], [splitPdf], [mergePdfs] and
    [pdfToImagesViaLibreOffice].  The file system is a function from paths
    to files; what LibreOffice and mammoth write is outside the model, so a
    conversion that is handed to them ends in the request made to them. *)
Module DocumentOps.
Import JsString Formats DocumentConverter.
#[local] Open Scope string_scope.
#[local] Open Scope Z_scope.

Definition document_SUPPORTED_OUTPUTS : gset string :=
  list_to_set ["pdf"; "docx"; "txt"; "html"; "epub"].

(** [String(format || '').trim().toLowerCase()] *)
Definition normalize (format : string) : string :=
  string_of_list_ascii (toLowerCase (trim (list_ascii_of_string format))).

(** [ensureOutputExt(format)] *)
Definition ensureOutputExt (format : string) : string :=
  let f := normalize format in
  if bool_decide (f = "htm") then "html"
  else if bool_decide (f = "jpeg") then "jpg"
  else f.

(** [normalizeExt(p)] *)
Definition normalizeExt (p : string) : string := NodePath.ext p.

(** The errors that [convertDocument] and its helpers throw, by the text
    that starts their message; [Thrown] carries the message of an error
    that comes up from [splitPdf] or the rasterization. *)
Inductive DocError : Type :=
  | UnsupportedOutputFormat (outputFormat : string)
  | UnsupportedInputFormat (extension file : string)
  | InputFileNotFound (file : string)
  | MergeRequiresPdf
  | LibreOfficeNotFound
  | UnsupportedConversionPath (inputExt outFmt : string)
  | NotAPdf (file : string)           (** [PDFDocument.load] rejects the bytes *)
  | NoInput                           (** [inputs[0]] is [undefined] *)
  | Thrown (msg : string).

Inductive Attempt (A : Type) : Type :=
  | Done (a : A)
  | Failed (e : DocError).
Arguments Done {A} a.
Arguments Failed {A} e.

(** [validateIO(inputPath, outputFormat)]: the first check that fails. *)
Definition validateIO (inputs : list string) (outputFormat : string) : option DocError :=
  if bool_decide (normalize outputFormat ∈ document_SUPPORTED_OUTPUTS) then
    match List.find (fun p => negb (bool_decide (normalizeExt p ∈ document_SUPPORTED_INPUTS)))
                    inputs with
    | Some p => Some (UnsupportedInputFormat (normalizeExt p) p)
    | None => None
    end
  else Some (UnsupportedOutputFormat outputFormat).

Section Files.
Context {Page : Type}.

(** A file: a PDF that pdf-lib loads, with its pages, or anything else. *)
Inductive File : Type :=
  | PdfFile (pages : list Page)
  | OtherFile.

(** [PDFDocument.load(await fsp.readFile(p))] *)
Definition load (fs : string → option File) (p : string) : Attempt (list Page) :=
  match fs p with
  | Some (PdfFile pages) => Done pages
  | _ => Failed (NotAPdf p)
  end.

(** The page that a 1-based page number names, if it names one. *)
Definition page_at (srcDoc : list Page) (p : Z) : option Page :=
  if bool_decide (1 ≤ p) then srcDoc !! Z.to_nat (p - 1) else None.

(** [src.getPageIndices()] *)
Definition getPageIndices (src : list Page) : list Z :=
  seqZ 0 (Z.of_nat (length src)).

(** [mergePdfs(inputs, outputPdf)] on the loaded inputs: the pages written
    to [outputPdf]. *)
Definition mergePdfs (inputs : list (list Page)) : Result (list Page) :=
  fold_left (fun acc src =>
               match acc with
               | Ok dst =>
                   match copyPages src (getPageIndices src) with
                   | Ok copied => Ok (dst ++ copied)%list
                   | Throw e => Throw e
                   end
               | Throw e => Throw e
               end)
            inputs (Ok []).

(** [mergePdfs] from the paths: every input is read and loaded in turn. *)
Fixpoint load_all (fs : string → option File) (inputs : list string)
    : Attempt (list (list Page)) :=
  match inputs with
  | [] => Done []
  | p :: rest =>
      match load fs p with
      | Done doc =>
          match load_all fs rest with
          | Done docs => Done (doc :: docs)
          | Failed e => Failed e
          end
      | Failed e => Failed e
      end
  end.

(** The options of [convertDocument] that decide what it does.  [opt_split]
    is [None] for an absent [split]; [opt_pageRange] likewise. *)
Record Options : Type := mkOptions {
  opt_merge : bool;
  opt_split : option Ranges;
  opt_pageRange : option string;
  opt_compress : bool;
  opt_pdfToImages : bool;
  opt_concurrency : Z
}.

(** The truth value of [split]: an array is truthy, a string unless
    empty. *)
Definition split_requested (o : Options) : option Ranges :=
  match opt_split o with
  | Some (RangeString s) => if bool_decide (s = "") then None else Some (RangeString s)
  | other => other
  end.

Inductive Engine : Type := LibreOffice | Mammoth.

(** What [convertDocument] resolves with: the pages of the PDF it wrote
    ([mergePdfs], the PDF to PDF path), the parts of a split, the pool of
    the rasterization it awaits, or the conversion handed to an engine with
    its target format. *)
Inductive Output : Type :=
  | OutDoc (pages : list Page)
  | OutParts (parts : list (Z * list Page))
  | OutImages (pool : Pool.State string)
  | OutEngine (engine : Engine) (input target : string).

Definition of_result {A : Type} (f : A → Output) (r : Result A) : Attempt Output :=
  match r with
  | Ok a => Done (f a)
  | Throw msg => Failed (Thrown msg)
  end.

(** [runLibreOfficeConvert] behind its guard [if (!loPath) throw]. *)
Definition with_libreoffice (loPath : option string) (input target : string)
    : Attempt Output :=
  match loPath with
  | Some _ => Done (OutEngine LibreOffice input target)
  | None => Failed LibreOfficeNotFound
  end.

(** The branch [inputExt === 'pdf'] of [convertDocument]. *)
Definition convert_pdf (fs : string → option File) (loPath : option string)
    (input outFmt : string) (o : Options) : Attempt Output :=
  match split_requested o with
  | Some ranges =>
      match load fs input with
      | Done src => of_result OutParts (splitPdf src ranges)
      | Failed e => Failed e
      end
  | None =>
      if bool_decide (outFmt = "pdf") then
        match load fs input with
        | Done src =>
            let pages :=
              match opt_pageRange o with
              | Some r => parsePageRange r (Z.of_nat (length src))
              | None => []
              end in
            match pages with
            | [] => Done (OutDoc src)
            | _ => of_result OutDoc (subsetPdf src pages)
            end
        | Failed e => Failed e
        end
      else if opt_pdfToImages o then
        match loPath with
        | None => Failed LibreOfficeNotFound
        | Some _ =>
            match load fs input with
            | Done src => of_result OutImages (pdfToImagesViaLibreOffice src (opt_concurrency o))
            | Failed e => Failed e
            end
        end
      else with_libreoffice loPath input outFmt
  end.

(** [convertDocument(inputPath, outputFormat, options)] with [inputs] the
    array made of [inputPath]. *)
Definition convertDocument (fs : string → option File) (loPath : option string)
    (inputs : list string) (outputFormat : string) (o : Options) : Attempt Output :=
  match validateIO inputs outputFormat with
  | Some e => Failed e
  | None =>
      match List.find (fun p => negb (bool_decide (is_Some (fs p)))) inputs with
      | Some p => Failed (InputFileNotFound p)
      | None =>
          let outFmt := ensureOutputExt outputFormat in
          if opt_merge o then
            if forallb (fun f => bool_decide (normalizeExt f = "pdf")) inputs then
              match load_all fs inputs with
              | Done docs => of_result OutDoc (mergePdfs docs)
              | Failed e => Failed e
              end
            else Failed MergeRequiresPdf
          else
            match inputs with
            | [] => Failed NoInput
            | input :: _ =>
                let inputExt := normalizeExt input in
                if bool_decide (inputExt = "pdf") then
                  convert_pdf fs loPath input outFmt o
                else if bool_decide (inputExt = "docx") && bool_decide (outFmt = "html") then
                  Done (OutEngine Mammoth input "html")
                else if (bool_decide (inputExt = "html") || bool_decide (inputExt = "htm"))
                        && bool_decide (outFmt = "pdf") then
                  with_libreoffice loPath input "pdf"
                else if bool_decide (inputExt ∈ ["docx"; "doc"; "rtf"; "odt"; "txt";
                                                 "html"; "htm"; "epub"]) then
                  if bool_decide (outFmt = "html") && negb (bool_decide (inputExt = "docx")) then
                    with_libreoffice loPath input "html"
                  else if bool_decide (outFmt ∈ ["pdf"; "docx"; "txt"; "epub"]) then
                    with_libreoffice loPath input outFmt
                  else Failed (UnsupportedConversionPath inputExt outFmt)
                else Failed (UnsupportedConversionPath inputExt outFmt)
            end
      end
  end.

End Files.
Arguments File : clear implicits.
Arguments Output : clear implicits.

(** A file system with a three-page PDF, a two-page PDF and a text file,
    for the examples. *)
Definition three_files (p : string) : option (File string) :=
  if bool_decide (p = "/up/a.pdf") then Some (PdfFile ["a1"; "a2"; "a3"])
  else if bool_decide (p = "/up/b.PDF") then Some (PdfFile ["b1"; "b2"])
  else if bool_decide (p = "/up/c.txt") then Some OtherFile
  else None.

End DocumentOps.

(** ** server/services/audioConverter.js *)
Module AudioConverter.
Import JsString Formats.
#[local] Open Scope string_scope.
#[local] Open Scope Z_scope.

Definition audio_SUPPORTED_OUTPUTS : gset string :=
  list_to_set ["mp3"; "wav"; "ogg"; "m4a"; "flac"; "aac"; "opus"].

(** [getCodecForFormat(format)] *)
Definition getCodecForFormat (format : string) : string :=
  let f := string_of_list_ascii (toLowerCase (list_ascii_of_string format)) in
  if bool_decide (f = "mp3") then "libmp3lame"
  else if bool_decide (f = "aac") || bool_decide (f = "m4a") then "aac"
  else if bool_decide (f = "ogg") then "libvorbis"
  else if bool_decide (f = "opus") then "libopus"
  else if bool_decide (f = "flac") then "flac"
  else if bool_decide (f = "wav") then "pcm_s16le"
  else "copy".

(** A JavaScript number as the progress handler meets it. *)
Inductive Num : Type :=
  | Finite (q : Q)
  | NotFinite.          (** [NaN], [Infinity], [-Infinity] *)

(** One [progress] event of ffmpeg: [percent] when it is a number;
    [timemark], when it is a string, as the seconds that
    [timemarkToSeconds] reads from it. *)
Record ProgressEvent : Type := mkProgressEvent {
  ev_percent : option Num;
  ev_timemark : option Q
}.

(** The closure state of the handler: [lastPercent], and the calls of
    [onProgress] made so far, oldest first. *)
Record Forwarder : Type := mkForwarder {
  lastPercent : Z;
  forwarded : list Z
}.

Definition forwarder_start : Forwarder := mkForwarder 0 [].

Definition Qclamp_0_100 (q : Q) : Q := Qmin 100 (Qmax 0 q).

(** The [.on('progress', ...)] handler of [convertAudio]; [duration] is
    the duration from ffprobe when it is a number other than 0. *)
Definition on_progress (duration : option Q) (st : Forwarder) (ev : ProgressEvent)
    : Forwarder :=
  let percent : option Num :=
    match ev_percent ev with
    | Some n => Some n
    | None =>
        match ev_timemark ev, duration with
        | Some t, Some d => Some (Finite (Qclamp_0_100 (t / d * 100)))
        | _, _ => None
        end
    end in
  match percent with
  | Some (Finite q) =>
      let p := Z.max 0 (Z.min 100 (Router.Math_round q)) in
      if bool_decide (p ≠ lastPercent st) then mkForwarder p (forwarded st ++ [p])%list
      else st
  | _ => st
  end.

End AudioConverter.

(** ** server/services/archiveConverter.js *)
Module ArchiveConverter.
#[local] Open Scope Z_scope.

(** [Math.min(100, Math.max(0, Math.round(p.percent * 0.5)))]: the first
    phase of the convert mode. *)
Definition extract_report (percent : Q) : Z :=
  Z.min 100 (Z.max 0 (Router.Math_round (percent * (1 # 2))%Q)).

(** [50 + Math.min(50, Math.round(p.percent * 0.5))]: the second phase. *)
Definition compress_report (percent : Q) : Z :=
  50 + Z.min 50 (Router.Math_round (percent * (1 # 2))%Q).

(** [if (p && p.percent) report(...)]: a percentage of 0 is not reported. *)
Definition reported (f : Q → Z) (percent : Q) : option Z :=
  if Qeq_bool percent 0 then None else Some (f percent).

(** The calls of [onProgress] that the convert mode makes, oldest first,
    for the percentages that 7z reports while it extracts and then while
    it compresses. *)
Definition convert_reports (extracting compressing : list Q) : list Z :=
  omap (reported extract_report) extracting ++ omap (reported compress_report) compressing.

End ArchiveConverter.

(** ** More of server/services/imageConverter.js *)
Module ImageOps.
Import JsString.
#[local] Open Scope string_scope.

(** [pickNumber(n, min, max)]; [n] is [None] when it is no finite number,
    a bound is [None] when it is [null] or [undefined]. *)
Definition pickNumber (n : option Q) (min max : option Q) : option Q :=
  match n with
  | None => None
  | Some v =>
      match min with
      | Some lo =>
          if Qlt_le_dec v lo then Some lo
          else match max with
               | Some hi => if Qlt_le_dec hi v then Some hi else Some v
               | None => Some v
               end
      | None =>
          match max with
          | Some hi => if Qlt_le_dec hi v then Some hi else Some v
          | None => Some v
          end
      end
  end.

End ImageOps.

(** ** server/services/fontConverter.js *)
Module FontConverter.
Import JsString Formats.
#[local] Open Scope string_scope.

Definition font_SUPPORTED_OUTPUTS : gset string :=
  list_to_set ["ttf"; "otf"; "woff"; "woff2"].

(** [toSubsetUnicodeList(chars)] on a string given by its code points:
    [null] for the empty string, else the code points in the order of
    their first occurrence. *)
Definition toSubsetUnicodeList (chars : list Z) : option (list Z) :=
  match chars with
  | [] => None
  | _ => Some (fold_left (fun set ch => DocumentConverter.set_add ch set) chars [])
  end.

(** [fonteditorTypeForExt(format)] *)
Definition fonteditorTypeForExt (format : string) : string :=
  let f := string_of_list_ascii (toLowerCase (list_ascii_of_string format)) in
  if bool_decide (f = "ttf") then "ttf"
  else if bool_decide (f = "otf") then "otf"
  else if bool_decide (f = "woff") then "woff"
  else if bool_decide (f = "woff2") then "woff2"
  else "ttf".

End FontConverter.

(** ** More of server/routes/converter.js *)
Module Jobs.
Import Router.
#[local] Open Scope Z_scope.

(** The ranges that the status endpoint can report for a job: a percentage
    and, when there is one, a non-negative number of seconds. *)
Definition job_wf (j : Job) : Prop :=
  0 ≤ progress j ≤ 100 ∧ ∀ eta, etaSeconds j = Some eta → 0 ≤ eta.

Definition store_wf (st : Store) : Prop :=
  ∀ jobId j, heap st !! jobId = Some j → job_wf j.

(** The events that a converter raises through [onProgress]. *)
Definition is_progress (ev : Event) : Prop :=
  match ev with EvProgress _ _ => True | _ => False end.

(** [POST /api/batch] up to the response: one [newJob] per file, in the
    order of the upload, with the batch id in its meta; [files] gives for
    each file the UUID and the clock reading that [newJob] draws, and the
    path of the upload. *)
Definition submit_batch (batch : string) (fmt : string)
    (files : list (string * Z * string)) (st : Store) : Store :=
  fold_left (fun st '(uuid, now, filePath) =>
               update_job uuid (set_inputPath (Some filePath))
                 (newJob uuid now (mkMeta (detectCategory filePath) fmt (Some batch)) st))
            files st.

(** The stores that the routes can produce: from the empty map, by
    submissions, runs with whatever happens during them, cancel requests
    and downloads. *)
Inductive reachable : Store → Prop :=
  | reach_empty : reachable empty_store
  | reach_submit uuid now filePath fmt st :
      reachable st → reachable (submit uuid now filePath fmt st)
  | reach_batch batch fmt files st :
      reachable st → reachable (submit_batch batch fmt files st)
  | reach_run jobId c started now0 evs st :
      reachable st → reachable (runConversionJob jobId c started now0 evs st)
  | reach_cancel jobId st :
      reachable st → reachable (cancel jobId st).1
  | reach_download jobId st :
      reachable st → reachable (download jobId st).

End Jobs.

(** * Properties *)

(** ** Page ranges *)
Section PageRangeFacts.
Import JsString DocumentConverter.

Lemma drop_while_nil_iff f s : drop_while f s = [] ↔ Forall (fun c => f c = true) s.
Proof.
  induction s as [|c r IH]; simpl; [by split; [constructor|]|].
  destruct (f c) eqn:E.
  - rewrite IH. split; [by constructor|by inversion 1].
  - split; [done|]. inversion 1; congruence.
Qed.

Lemma drop_while_head f s c r : drop_while f s = c :: r → f c = false.
Proof.
  induction s as [|c' r' IH]; simpl; [done|].
  destruct (f c') eqn:E; [done|]. by intros [= -> ->].
Qed.

Lemma trim_nil_iff s : trim s = [] ↔ Forall (fun c => is_space c = true) s.
Proof.
  unfold trim. split.
  - intros H. apply (f_equal reverse) in H. rewrite reverse_involutive in H.
    change (reverse (@nil ascii)) with (@nil ascii) in H.
    apply drop_while_nil_iff in H.
    apply drop_while_nil_iff.
    destruct (drop_while is_space s) as [|c r] eqn:E; [done|].
    apply drop_while_head in E.
    rewrite Forall_forall in H. specialize (H c).
    rewrite H in E; [done|]. rewrite elem_of_reverse. left.
  - intros H. apply drop_while_nil_iff in H. by rewrite H.
Qed.

Lemma split_comma_blank s :
  Forall (fun c => is_space c = true) s → split_comma s = [s].
Proof.
  induction 1 as [|c r Hc _ IH]; simpl; [done|].
  rewrite bool_decide_eq_false_2; [by rewrite IH|].
  intros ->. by vm_compute in Hc.
Qed.

Lemma chunks_blank s : non_empty (trim s) = false → chunks s = [].
Proof.
  intros H. assert (trim s = []) as Ht by (by destruct (trim s)).
  unfold chunks. rewrite split_comma_blank by (by apply trim_nil_iff).
  simpl. rewrite Ht. done.
Qed.

Lemma set_add_elem p set x : x ∈ set_add p set ↔ x ∈ set ∨ x = p.
Proof.
  unfold set_add. case_decide as Hin.
  - split; [by left|]. by intros [?| ->].
  - rewrite elem_of_app, list_elem_of_singleton. done.
Qed.

Lemma set_add_NoDup p set : NoDup set → NoDup (set_add p set).
Proof.
  unfold set_add. case_decide as Hin; [done|]. intros Hnd.
  apply NoDup_app. split_and!; [done| |apply NoDup_singleton].
  intros y Hy ->%list_elem_of_singleton. done.
Qed.

Lemma fold_add_page_elem n l set x :
  x ∈ fold_left (add_page n) l set ↔ x ∈ set ∨ (x ∈ l ∧ page_ok n x = true).
Proof.
  revert set. induction l as [|p l IH]; intros set; simpl.
  - split; [by left|]. intros [?|[?%elem_of_nil ?]]; done.
  - rewrite IH, elem_of_cons. unfold add_page at 1. destruct (page_ok n p) eqn:E.
    + rewrite set_add_elem. naive_solver.
    + split; [naive_solver|].
      intros [?|[[->|?] ?]]; [by left|congruence|by right].
Qed.

Lemma fold_add_page_NoDup n l set :
  NoDup set → NoDup (fold_left (add_page n) l set).
Proof.
  revert set. induction l as [|p l IH]; intros set H; simpl; [done|].
  apply IH. unfold add_page. destruct (page_ok n p); auto using set_add_NoDup.
Qed.

Lemma add_chunk_elem n set chunk x :
  x ∈ add_chunk n set chunk ↔ x ∈ set ∨ (chunk_page chunk x ∧ page_ok n x = true).
Proof.
  unfold add_chunk, chunk_page. destruct (match_range chunk) as [[m1 m2]|].
  - set (a := default 0 (parseInt m1)). set (b := default 0 (parseInt m2)).
    case_bool_decide; simpl.
    + rewrite fold_add_page_elem, elem_of_seqZ. naive_solver lia.
    + rewrite fold_add_page_elem, elem_of_seqZ. naive_solver lia.
  - destruct (parseInt chunk) as [p|]; [|naive_solver].
    unfold add_page. destruct (page_ok n p) eqn:E.
    + rewrite set_add_elem. naive_solver.
    + split; [by left|]. intros [?|[[= ->] ?]]; [done|congruence].
Qed.

Lemma add_chunk_NoDup n set chunk : NoDup set → NoDup (add_chunk n set chunk).
Proof.
  intros H. unfold add_chunk. destruct (match_range chunk) as [[m1 m2]|].
  - case_bool_decide; simpl; by apply (fold_add_page_NoDup n).
  - destruct (parseInt chunk); [|done].
    unfold add_page. destruct (page_ok _ _); auto using set_add_NoDup.
Qed.

Lemma fold_add_chunk_elem n cs set x :
  x ∈ fold_left (add_chunk n) cs set ↔
  x ∈ set ∨ ∃ c, c ∈ cs ∧ chunk_page c x ∧ page_ok n x = true.
Proof.
  revert set. induction cs as [|c cs IH]; intros set; simpl.
  - split; [by left|]. intros [?|(? & ?%elem_of_nil & ?)]; done.
  - rewrite IH, add_chunk_elem. setoid_rewrite elem_of_cons. naive_solver.
Qed.

Lemma fold_add_chunk_NoDup n cs set :
  NoDup set → NoDup (fold_left (add_chunk n) cs set).
Proof.
  revert set. induction cs as [|c cs IH]; intros set H; simpl; auto using add_chunk_NoDup.
Qed.

Lemma sort_numeric_elem l x : x ∈ sort_numeric l ↔ x ∈ l.
Proof. unfold sort_numeric. by rewrite merge_sort_Permutation. Qed.

Lemma Sorted_le_NoDup_lt (l : list Z) :
  Sorted Z.le l → NoDup l → StronglySorted Z.lt l.
Proof.
  intros Hs Hn. apply Sorted_StronglySorted in Hs; [|intros ???; lia].
  induction Hs as [|x l Hs IH Hx]; [constructor|].
  apply NoDup_cons in Hn as [Hx' Hn]. constructor; [auto|].
  rewrite Forall_forall in Hx |- *. intros y Hy.
  specialize (Hx y Hy). assert (x ≠ y) by (intros ->; done). lia.
Qed.

Lemma sort_numeric_ascending l : NoDup l → StronglySorted Z.lt (sort_numeric l).
Proof.
  intros H. apply Sorted_le_NoDup_lt.
  - apply (Sorted_merge_sort Z.le).
  - unfold sort_numeric. by rewrite merge_sort_Permutation.
Qed.

Lemma parsePageRange_elem s n p :
  p ∈ parsePageRange_chars s n ↔
  ∃ c, c ∈ chunks s ∧ chunk_page c p ∧ page_ok n p = true.
Proof.
  unfold parsePageRange_chars. destruct (non_empty (trim s)) eqn:E.
  - rewrite sort_numeric_elem, fold_add_chunk_elem.
    split; [by intros [?%elem_of_nil|?]|by right].
  - rewrite chunks_blank by done.
    split; [by intros ?%elem_of_nil|by intros (? & ?%elem_of_nil & ?)].
Qed.

Lemma parsePageRange_ascending s n : StronglySorted Z.lt (parsePageRange_chars s n).
Proof.
  unfold parsePageRange_chars. destruct (non_empty (trim s)); [|constructor].
  apply sort_numeric_ascending, fold_add_chunk_NoDup, NoDup_nil_2.
Qed.

Lemma page_ok_spec n p : page_ok n p = true ↔ 1 ≤ p ∧ (n = 0 ∨ p ≤ n).
Proof.
  unfold page_ok. rewrite andb_true_iff, orb_true_iff, !bool_decide_eq_true. done.
Qed.

End PageRangeFacts.

(** ** Documents *)
Section DocumentFacts.
Import JsString DocumentConverter.
Context {Page : Type}.
Implicit Types (srcDoc : list Page) (pages : list Z).

Lemma filter_zeroBased srcDoc (selected : list Z) :
  filter (fun i => 0 ≤ i ∧ i < Z.of_nat (length srcDoc)) ((fun p => p - 1) <$> selected)
  = (fun p => p - 1) <$> filter (in_document srcDoc) selected.
Proof.
  induction selected as [|p sel IH]; [done|].
  rewrite fmap_cons, !filter_cons, IH. unfold in_document.
  repeat case_decide; try done; lia.
Qed.

(** Copying the in-range pages of any selection succeeds, and yields the
    selected pages in the order of the selection. *)
Lemma copy_selected srcDoc (selected : list Z) :
  ∃ copied,
    copyPages srcDoc
      (filter (fun i => 0 ≤ i ∧ i < Z.of_nat (length srcDoc)) ((fun p => p - 1) <$> selected))
    = Ok copied
    ∧ Forall2 (fun p page => srcDoc !! Z.to_nat (p - 1) = Some page)
              (filter (in_document srcDoc) selected) copied.
Proof.
  rewrite filter_zeroBased. unfold copyPages.
  set (f := fun i : Z => if bool_decide (0 ≤ i) then srcDoc !! Z.to_nat i else None).
  assert (is_Some (mapM f ((fun p => p - 1) <$> filter (in_document srcDoc) selected)))
    as [copied Hc].
  { apply mapM_is_Some_2, Forall_fmap, Forall_forall.
    intros p [Hp _]%list_elem_of_filter. unfold in_document in Hp. unfold f; simpl.
    rewrite bool_decide_eq_true_2 by lia. apply lookup_lt_is_Some. lia. }
  exists copied. rewrite Hc. split; [done|].
  apply mapM_Some_1 in Hc. apply Forall2_fmap_l in Hc.
  eapply Forall2_impl; [exact Hc|]. intros p page; simpl. unfold f.
  case_bool_decide; done.
Qed.

Lemma subsetPdf_selected srcDoc pages :
  pages ≠ [] →
  ∃ copied, subsetPdf srcDoc pages = Ok copied
    ∧ Forall2 (fun p page => srcDoc !! Z.to_nat (p - 1) = Some page)
              (filter (in_document srcDoc) pages) copied.
Proof.
  intros Hne. unfold subsetPdf. destruct pages as [|p ps]; [done|].
  apply copy_selected.
Qed.

Lemma subsetPdf_all srcDoc : subsetPdf srcDoc [] = Ok srcDoc.
Proof.
  unfold subsetPdf.
  destruct (copy_selected srcDoc ((fun i => i + 1) <$> seqZ 0 (Z.of_nat (length srcDoc))))
    as (copied & -> & Hall).
  f_equal.
  assert (∀ l : list Z, Forall (in_document srcDoc) l → filter (in_document srcDoc) l = l)
    as Hid.
  { induction 1 as [|x l Hx _ IH]; [done|]. rewrite filter_cons_True by done. by rewrite IH. }
  rewrite Hid in Hall.
  2:{ apply Forall_fmap, Forall_seqZ. intros i Hi. unfold in_document; simpl. lia. }
  apply Forall2_fmap_l in Hall.
  apply list_eq_same_length with (length srcDoc); [done| |].
  - apply Forall2_length in Hall. rewrite length_seqZ in Hall. lia.
  - intros i x y Hi Hx Hy.
    eapply Forall2_lookup_r in Hall as (j & Hj & Hl); [|exact Hx].
    apply lookup_seqZ in Hj as [-> _]. simpl in Hl.
    replace (Z.to_nat (0 + Z.of_nat i + 1 - 1)) with i in Hl by lia. congruence.
Qed.



Lemma subsetPdf_single srcDoc (n : nat) page :
  srcDoc !! n = Some page → subsetPdf srcDoc [1 + Z.of_nat n] = Ok [page].
Proof.
  intros Hpage. pose proof (lookup_lt_Some _ _ _ Hpage) as Hlt.
  destruct (subsetPdf_selected srcDoc [1 + Z.of_nat n]) as (copied & -> & Hall); [done|].
  rewrite filter_cons_True in Hall by (unfold in_document; lia).
  rewrite filter_nil in Hall.
  apply Forall2_cons_inv_l in Hall as (page' & rest & Hp & Hnil%Forall2_nil_inv_l & ->).
  replace (Z.to_nat (1 + Z.of_nat n - 1)) with n in Hp by lia. congruence.
Qed.

Lemma make_singles_prefix srcDoc (n : nat) :
  (n ≤ length srcDoc)%nat →
  fold_left (fun acc p =>
               match acc with
               | Ok singles =>
                   match subsetPdf srcDoc [p] with
                   | Ok single => Ok (singles ++ [(p, single)])
                   | Throw e => Throw e
                   end
               | Throw e => Throw e
               end)
            (seqZ 1 (Z.of_nat n)) (Ok [])
  = Ok (zip (seqZ 1 (Z.of_nat n)) ((fun page => [page]) <$> take n srcDoc)).
Proof.
  induction n as [|n IH]; intros Hn; [done|].
  rewrite seqZ_S, fold_left_app, IH by lia. simpl.
  destruct (lookup_lt_is_Some_2 srcDoc n) as [page Hpage]; [lia|].
  rewrite (subsetPdf_single srcDoc n page Hpage).
  rewrite (take_S_r _ _ _ Hpage), fmap_app. simpl.
  rewrite zip_with_app; [done|].
  rewrite length_seqZ, length_fmap, length_take. lia.
Qed.

(** The pool of the rasterization runs over one single-page document per
    page, in page order. *)
Lemma pdfToImages_pool srcDoc concurrency :
  pdfToImagesViaLibreOffice srcDoc concurrency
  = Ok (Pool.runLimited
          (zip (seqZ 1 (Z.of_nat (length srcDoc))) ((fun page => [page]) <$> srcDoc))
          concurrency).
Proof.
  unfold pdfToImagesViaLibreOffice, make_singles.
  rewrite (make_singles_prefix srcDoc (length srcDoc)) by done.
  by rewrite firstn_all.
Qed.

End DocumentFacts.

(** ** Chunks made of digit runs *)
Section DigitRuns.
Import JsString DocumentConverter.

Lemma digit_not_space c : is_digit c = true → is_space c = false.
Proof.
  unfold is_digit, is_space. rewrite bool_decide_eq_true. intros H.
  rewrite !bool_decide_eq_false_2 by lia. done.
Qed.

Lemma digit_not_sign c : is_digit c = true → c ≠ "-"%char ∧ c ≠ "+"%char.
Proof.
  unfold is_digit. rewrite bool_decide_eq_true. intros H.
  split; intros ->; vm_compute in H; destruct H as [H1 H2]; by (apply H1 || apply H2).
Qed.

Lemma take_while_all f d : Forall (fun c => f c = true) d → take_while f d = d.
Proof. induction 1 as [|c d Hc _ IH]; simpl; [done|]. by rewrite Hc, IH. Qed.

Lemma take_while_stop f d c r :
  Forall (fun c => f c = true) d → f c = false → take_while f (d ++ c :: r) = d.
Proof.
  intros Hd Hc. induction Hd as [|c' d Hc' _ IH]; simpl; [by rewrite Hc|].
  by rewrite Hc', IH.
Qed.

Lemma drop_while_stop f d c r :
  Forall (fun c => f c = true) d → f c = false → drop_while f (d ++ c :: r) = c :: r.
Proof.
  intros Hd Hc. induction Hd as [|c' d Hc' _ IH]; simpl; [by rewrite Hc|].
  by rewrite Hc'.
Qed.

Lemma drop_space_digits d : digit_run d → drop_while is_space d = d.
Proof.
  intros [Hne Hd]. destruct Hd as [|c d Hc _]; [done|].
  simpl. by rewrite (digit_not_space c).
Qed.

Lemma match_range_pair d1 d2 :
  digit_run d1 → digit_run d2 → match_range (d1 ++ "-"%char :: d2) = Some (d1, d2).
Proof.
  intros [Hne1 Hd1] [Hne2 Hd2]. unfold match_range.
  rewrite take_while_stop, drop_while_stop by done.
  destruct d1 as [|c1 r1]; [done|].
  change (drop_while is_space ("-"%char :: d2)) with ("-"%char :: d2). cbv iota beta.
  rewrite bool_decide_eq_true_2 by done.
  rewrite drop_space_digits by done.
  rewrite take_while_all by done.
  assert (drop_while is_digit d2 = []) as -> by by apply drop_while_nil_iff.
  by destruct d2.
Qed.

Lemma parseInt_digits d : digit_run d → parseInt d = Some (digits_value d).
Proof.
  intros Hd. unfold parseInt. rewrite drop_space_digits by done.
  destruct Hd as [Hne Hd]. destruct d as [|c r]; [done|].
  pose proof (Forall_inv Hd) as Hc. apply digit_not_sign in Hc as [H1 H2].
  rewrite !bool_decide_eq_false_2 by done.
  by rewrite take_while_all by done.
Qed.

Lemma chunk_page_pair d1 d2 p :
  digit_run d1 → digit_run d2 →
  chunk_page (d1 ++ "-"%char :: d2) p ↔
  Z.min (digits_value d1) (digits_value d2) ≤ p
  ≤ Z.max (digits_value d1) (digits_value d2).
Proof.
  intros H1 H2. unfold chunk_page.
  by rewrite match_range_pair, !parseInt_digits by done.
Qed.


End DigitRuns.

(** ** The claims about the page algebra *)
Section PageAlgebraClaims.
Import JsString DocumentConverter.
#[local] Open Scope string_scope.
#[local] Open Scope Z_scope.

(** The example of the specification: a reversed range, a duplicate and
    an unsorted list. *)
Example parsePageRange_example : parsePageRange "3-1,5,5,2" 10 = [1; 2; 3; 5].
Proof. reflexivity. Qed.




(** C4, as stated, fails: page 5 of a three-page document is out of
    range, and [subsetPdf] returns the document made of page 1. *)
Lemma subsetPdf_out_of_range_accepted :
  [1; 5] ≠ [] ∧ ¬ in_document ["p1"; "p2"; "p3"] 5
  ∧ subsetPdf ["p1"; "p2"; "p3"] [1; 5] = Ok ["p1"]
  ∧ ¬ ∃ msg, subsetPdf ["p1"; "p2"; "p3"] [1; 5] = Throw msg.
Proof.
  split_and!; [done|unfold in_document; simpl; lia|reflexivity|].
  intros [msg H]. vm_compute in H. discriminate.
Qed.

(** C4 (amended): for every source document and every non-empty page
    list, the subset operation succeeds; the numbers that name no page of
    the document are dropped, and the result holds the pages named by the
    remaining numbers, in the order of the list. *)
Theorem subsetPdf_drops_out_of_range {Page : Type} (srcDoc : list Page) (pages : list Z) :
  pages ≠ [] →
  ∃ copied,
    subsetPdf srcDoc pages = Ok copied
    ∧ Forall2 (fun p page => srcDoc !! Z.to_nat (p - 1) = Some page)
              (filter (in_document srcDoc) pages) copied.
Proof. apply subsetPdf_selected. Qed.

Lemma subsetPdf_drops_out_of_range_witness :
  ∃ copied,
    subsetPdf ["p1"; "p2"; "p3"] [3; 7; 1] = Ok copied
    ∧ Forall2 (fun p page => ["p1"; "p2"; "p3"] !! Z.to_nat (p - 1) = Some page)
              (filter (in_document ["p1"; "p2"; "p3"]) [3; 7; 1]) copied.
Proof. apply (subsetPdf_drops_out_of_range ["p1"; "p2"; "p3"] [3; 7; 1]). discriminate. Defined.

(** The example of the specification: the second spec is out of range
    and yields no output. *)
Example splitPdf_example :
  splitPdf ["a"; "b"; "c"; "d"; "e"; "f"; "g"; "h"; "i"; "j"] (RangeArray ["1-3"; "20-30"])
  = Ok [(1, ["a"; "b"; "c"])].
Proof. reflexivity. Qed.




(** C8: the empty spec, and any spec of white space only, resolves to
    the empty sequence whatever the page count; and [subsetPdf] with the
    empty page list yields the pages of the source, all of them and in
    their order. *)
Theorem empty_selection_is_identity {Page : Type} (doc : list Page) (n : Z) (s : string) :
  blank s →
  parsePageRange "" n = []
  ∧ parsePageRange s n = []
  ∧ subsetPdf doc [] = Ok doc.
Proof.
  intros Hs. split_and!; [done| |apply subsetPdf_all].
  unfold parsePageRange, parsePageRange_chars.
  apply trim_nil_iff in Hs. by rewrite Hs.
Qed.

Lemma empty_selection_is_identity_witness :
  parsePageRange "" 7 = []
  ∧ parsePageRange "   " 7 = []
  ∧ subsetPdf ["a"; "b"; "c"] [] = Ok ["a"; "b"; "c"].
Proof.
  apply (empty_selection_is_identity ["a"; "b"; "c"] 7 "   ").
  unfold blank. simpl. repeat constructor.
Defined.

End PageAlgebraClaims.

(** ** Dispatch *)
Section DispatchClaims.
Import Formats Router.
#[local] Open Scope string_scope.

Lemma detectCategory_supported filePath c :
  ext filePath ∈ SUPPORTED_INPUTS c →
  ext filePath ∈ SUPPORTED_INPUTS (detectCategory filePath)
  ∧ (priority (detectCategory filePath) ≤ priority c)%nat.
Proof.
  unfold detectCategory, has. intros Hc.
  destruct c; simpl in Hc; [..|by apply not_elem_of_empty in Hc];
    repeat (case_bool_decide; [by (split; [done|simpl; lia])|]); done.
Qed.

Lemma document_ebook_overlap e :
  e ∈ document_SUPPORTED_INPUTS ∧ e ∈ ebook_SUPPORTED_INPUTS
  ↔ e ∈ ["pdf"; "epub"; "txt"; "html"].
Proof.
  unfold document_SUPPORTED_INPUTS, ebook_SUPPORTED_INPUTS.
  rewrite !elem_of_list_to_set, !elem_of_cons, !elem_of_nil. naive_solver.
Qed.

Lemma not_audio_image e :
  e ∈ ["pdf"; "epub"; "txt"; "html"] →
  (e ∉ audio_SUPPORTED_INPUTS) ∧ (e ∉ image_SUPPORTED_INPUTS).
Proof.
  unfold audio_SUPPORTED_INPUTS, image_SUPPORTED_INPUTS.
  rewrite !elem_of_list_to_set, !elem_of_cons, !elem_of_nil. naive_solver.
Qed.

(** C9: [detectCategory] tests the tables in the order audio, image,
    document, archive, presentation, font, ebook and returns the first
    category whose table holds the extension: the category returned
    supports the extension and no category that supports it comes earlier,
    so of two categories that support it the later one is never returned.
    The document and ebook tables share exactly pdf, epub, txt and html;
    a path with one of these extensions, a .pdf or .epub upload in
    particular, goes to the document converter and not to the ebook
    converter. *)
Theorem detectCategory_first_match (filePath : string) :
  (∀ c, ext filePath ∈ SUPPORTED_INPUTS c →
        ext filePath ∈ SUPPORTED_INPUTS (detectCategory filePath)
        ∧ (priority (detectCategory filePath) ≤ priority c)%nat)
  ∧ (∀ c1 c2, (priority c1 < priority c2)%nat →
        ext filePath ∈ SUPPORTED_INPUTS c1 → ext filePath ∈ SUPPORTED_INPUTS c2 →
        detectCategory filePath ≠ c2)
  ∧ (ext filePath ∈ document_SUPPORTED_INPUTS ∧ ext filePath ∈ ebook_SUPPORTED_INPUTS
     ↔ ext filePath ∈ ["pdf"; "epub"; "txt"; "html"])
  ∧ (ext filePath ∈ ["pdf"; "epub"; "txt"; "html"] →
     detectCategory filePath = document ∧ detectCategory filePath ≠ ebook)
  ∧ (ext filePath = "pdf" ∨ ext filePath = "epub" →
     detectCategory filePath = document ∧ detectCategory filePath ≠ ebook).
Proof.
  assert (ext filePath ∈ ["pdf"; "epub"; "txt"; "html"] →
          detectCategory filePath = document ∧ detectCategory filePath ≠ ebook) as Hdoc.
  { intros He. pose proof (not_audio_image _ He) as [Ha Hi].
    apply document_ebook_overlap in He as [Hd _].
    unfold detectCategory, has.
    rewrite (bool_decide_eq_false_2 _ Ha), (bool_decide_eq_false_2 _ Hi),
      (bool_decide_eq_true_2 _ Hd). done. }
  split_and!.
  - intros c. apply detectCategory_supported.
  - intros c1 c2 Hlt H1 H2 Heq.
    apply detectCategory_supported in H1 as [_ Hle]. rewrite Heq in Hle. lia.
  - apply document_ebook_overlap.
  - exact Hdoc.
  - intros He. apply Hdoc. rewrite !elem_of_cons. naive_solver.
Qed.

Lemma detectCategory_first_match_witness :
  detectCategory "/srv/server/uploads/1714-33-Annual.Report.PDF" = document
  ∧ detectCategory "/srv/server/uploads/1714-34-novel.epub" = document.
Proof.
  split.
  - apply (detectCategory_first_match "/srv/server/uploads/1714-33-Annual.Report.PDF").
    left. reflexivity.
  - apply (detectCategory_first_match "/srv/server/uploads/1714-34-novel.epub").
    right. reflexivity.
Defined.

End DispatchClaims.

(** ** Jobs *)
Section JobFacts.
Import Router.

Lemma jobs_get_Some jobId st job :
  jobs_get jobId st = Some job ↔ jobs_has jobId st = true ∧ heap st !! jobId = Some job.
Proof. unfold jobs_get. destruct (jobs_has jobId st); naive_solver. Qed.

Lemma jobs_get_update jobId f st job :
  jobs_get jobId st = Some job → jobs_get jobId (update_job jobId f st) = Some (f job).
Proof.
  rewrite !jobs_get_Some. intros [Hhas Hheap]. split; [done|].
  simpl. by rewrite lookup_alter_eq, Hheap.
Qed.


Lemma clamp_percent_range p : 0 ≤ clamp_percent p ≤ 100.
Proof. unfold clamp_percent. lia. Qed.


Lemma rate_zero_iff d p :
  0 < p → Qeq_bool (inject_Z d / 1000 / (inject_Z p / 100))%Q 0 = true ↔ d = 0.
Proof.
  intros Hp. rewrite Qeq_bool_iff. unfold Qeq, Qdiv, Qmult, Qinv, inject_Z; simpl.
  destruct p as [|p|p]; try lia. simpl. split; [nia|]. intros ->. lia.
Qed.

(** What one call of the [progress] closure leaves in a registered job. *)
Lemma progress_cb_job jobId started now p st job :
  jobs_get jobId st = Some job →
  jobs_get jobId (progress_cb jobId started now p st)
  = Some (set_etaSeconds
            (if bool_decide (clamp_percent p > 0 ∧ now ≠ started)
             then Some (eta_formula (elapsed_seconds started now) (clamp_percent p))
             else None)
            (set_progress (clamp_percent p) job)).
Proof.
  intros Hget. pose proof Hget as [Hhas _]%jobs_get_Some.
  unfold progress_cb. rewrite Hhas. simpl.
  erewrite jobs_get_update by done. f_equal. f_equal.
  case_bool_decide as Hp.
  - destruct (Qeq_bool _ 0) eqn:E.
    + apply rate_zero_iff in E; [|lia]. rewrite bool_decide_eq_false_2 by lia. done.
    + rewrite bool_decide_eq_true_2; [done|]. split; [done|]. intros ->.
      rewrite Z.sub_diag in E.
      assert (0 < clamp_percent p) as Hpos by lia.
      rewrite (proj2 (rate_zero_iff 0 _ Hpos) eq_refl) in E. done.
  - rewrite bool_decide_eq_false_2 by lia. done.
Qed.

End JobFacts.

(** ** The claims about jobs *)
Section JobClaims.
Import Router.
#[local] Open Scope string_scope.
#[local] Open Scope Z_scope.







(** On the success path the check of the status is there: once the
    closing milestone has been reported, a cancelled job keeps its status
    and its output path, and the converter's result is dropped. *)
Lemma run_settle_discards_result jobId c started now result st job :
  jobs_get jobId st = Some job → status job = cancelled → c ≠ unknown →
  ∃ job', jobs_get jobId (run_settle jobId c started now (Ok result) st) = Some job'
          ∧ status job' = cancelled ∧ outputPath job' = outputPath job
          ∧ error job' = error job.
Proof.
  intros Hget Hst Hc. unfold run_settle.
  assert (∃ job1, jobs_get jobId
                    (match milestone_before c with
                     | Some _ => progress_cb jobId started now 100 st
                     | None => st
                     end) = Some job1
                  ∧ status job1 = cancelled ∧ outputPath job1 = outputPath job
                  ∧ error job1 = error job) as (job1 & Hget1 & Hst1 & Hout1 & Herr1).
  { destruct (milestone_before c); [|by eauto].
    eexists. split; [by apply progress_cb_job|done]. }
  pose proof Hget1 as [_ Hheap]%jobs_get_Some.
  destruct c; try done; rewrite Hheap, bool_decide_eq_true_2 by done; eauto.
Qed.

(** C1: the code does not keep a cancelled job frozen.  An audio job
    runs, reports 5 % after one second (ETA 19 s) and is cancelled.  If
    the converter then fails, the [catch] block, which has no check of the
    status, turns the job into [failed], records the error and resets
    [etaSeconds]; if the converter reports progress again, [progress] and
    [etaSeconds] follow.  For a document job that is cancelled and whose
    converter then succeeds, the closing [progress(100)] runs before the
    status is checked: [progress] moves to 100 and [etaSeconds] to 0, and
    only then is the result discarded. *)
Theorem cancelled_job_is_mutated :
  (report <$> jobs_get "j1"
     (runConversionJob "j1" audio 2000 2000 [EvProgress 3000 5; EvCancel]
        (one_job "/up/1-a.mp3" "wav")))
    = Some (cancelled, 5, Some 19, None, None)
  ∧ (report <$> jobs_get "j1"
       (runConversionJob "j1" audio 2000 2000
          [EvProgress 3000 5; EvCancel; EvSettle 3400 (Throw "ffmpeg exited with code 1")]
          (one_job "/up/1-a.mp3" "wav")))
    = Some (failed, 5, None, None, Some "ffmpeg exited with code 1")
  ∧ (report <$> jobs_get "j1"
       (runConversionJob "j1" audio 2000 2000 [EvProgress 3000 5; EvCancel; EvProgress 3500 50]
          (one_job "/up/1-a.mp3" "wav")))
    = Some (cancelled, 50, Some 2, None, None)
  ∧ (report <$> jobs_get "j1"
       (runConversionJob "j1" document 2000 2000 [EvCancel] (one_job "/up/1-a.pdf" "docx")))
    = Some (cancelled, 5, None, None, None)
  ∧ (report <$> jobs_get "j1"
       (runConversionJob "j1" document 2000 2000
          [EvCancel; EvSettle 4000 (Ok (ResString "/out/1-a.docx"))]
          (one_job "/up/1-a.pdf" "docx")))
    = Some (cancelled, 100, Some 0, None, None).
Proof. split_and!; reflexivity. Qed.

End JobClaims.

(** ** The worker pool *)
Section PoolFacts.
Import Pool.
Context {Item R : Type}.
Variable items : list Item.
Variable limit : Z.
Variable mapper : Item → nat → Outcome R.

#[local] Abbreviation State := (State R).
#[local] Abbreviation launch := (launch items limit).
#[local] Abbreviation launch_loop := (launch_loop items limit).
#[local] Abbreviation complete := (complete items limit mapper).
#[local] Abbreviation step := (step items limit mapper).
#[local] Abbreviation rejected := (rejected items mapper).
#[local] Abbreviation fulfilled := (fulfilled items mapper).

Lemma launch_loop_spec fuel (s : State) :
  (length items - next s ≤ fuel)%nat →
  ∃ j : nat,
    launch_loop fuel s
    = mkState (results s) (next s + j) (active s + Z.of_nat j)
              (in_flight s ++ seq (next s) j) (settled s)
    ∧ (j = 0%nat ∨ (next s + j ≤ length items)%nat ∧ active s + Z.of_nat j ≤ limit)
    ∧ ((next s + j < length items)%nat → limit ≤ active s + Z.of_nat j).
Proof.
  revert s. induction fuel as [|fuel IH]; intros s Hfuel; simpl.
  - exists 0%nat. destruct s; simpl in *.
    rewrite Nat.add_0_r, Z.add_0_r, app_nil_r. split_and!; [done|by left|lia].
  - destruct (bool_decide (active s < limit)) eqn:Ha;
      [destruct (bool_decide (next s < length items)%nat) eqn:Hn|]; simpl.
    + apply bool_decide_eq_true in Ha, Hn.
      destruct (IH (mkState (results s) (S (next s)) (active s + 1)
                            (in_flight s ++ [next s]) (settled s)))
        as (j & Hl & Hj & Hbusy); [simpl; lia|]. simpl in *.
      exists (S j). split_and!.
      * rewrite Hl. f_equal; [lia|lia|]. by rewrite <- app_assoc.
      * right. destruct Hj as [->|Hj]; lia.
      * intros. assert (limit ≤ active s + 1 + Z.of_nat j) by (apply Hbusy; lia). lia.
    + apply bool_decide_eq_false in Hn.
      exists 0%nat. destruct s; simpl in *.
      rewrite Nat.add_0_r, Z.add_0_r, app_nil_r. split_and!; [done|by left|lia].
    + apply bool_decide_eq_false in Ha.
      exists 0%nat. destruct s; simpl in *.
      rewrite Nat.add_0_r, Z.add_0_r, app_nil_r. split_and!; [done|by left|lia].
Qed.

Lemma launch_spec (s : State) :
  ∃ j : nat,
    launch s
    = mkState (results s) (next s + j) (active s + Z.of_nat j)
              (in_flight s ++ seq (next s) j) (settled s)
    ∧ (j = 0%nat ∨ (next s + j ≤ length items)%nat ∧ active s + Z.of_nat j ≤ limit)
    ∧ ((next s + j < length items)%nat → limit ≤ active s + Z.of_nat j).
Proof. apply launch_loop_spec. lia. Qed.

Lemma length_filter_ne (l : list nat) (x : nat) :
  NoDup l → x ∈ l → S (length (filter (fun i => i ≠ x) l)) = length l.
Proof.
  induction 1 as [|y l Hy Hnd IH]; [by intros ?%elem_of_nil|].
  intros [->|Hx]%elem_of_cons.
  - rewrite filter_cons_False by (by intros ?). simpl. f_equal.
    f_equal. clear IH Hnd. induction l as [|z l IH]; [done|].
    apply not_elem_of_cons in Hy as [? ?].
    rewrite filter_cons_True by done. by rewrite IH.
  - rewrite filter_cons_True by (by intros ->). simpl. by rewrite IH.
Qed.

(** The shape of the state after the handler of [idx] has run: [j] calls
    were launched by the handler. *)
Lemma complete_shape idx (s s' : State) :
  complete idx s = Some s' →
  ∃ item, idx ∈ in_flight s ∧ items !! idx = Some item ∧
    match mapper item idx with
    | Rejected err =>
        s' = mkState (results s) (next s) (active s)
                     (filter (fun i => i ≠ idx) (in_flight s))
                     (match settled s with None => Some (Throw err) | v => v end)
    | Fulfilled r =>
        ∃ j : nat,
          s' = mkState (<[idx := Some r]> (results s)) (next s + j)
                       (active s - 1 + Z.of_nat j)
                       (filter (fun i => i ≠ idx) (in_flight s) ++ seq (next s) j)
                       (if bool_decide (length items ≤ next s)%nat
                           && bool_decide (active s - 1 = 0)
                        then match settled s with
                             | None => Some (Ok (<[idx := Some r]> (results s)))
                             | v => v
                             end
                        else settled s)
          ∧ (j = 0%nat ∨ (next s + j ≤ length items)%nat ∧ active s - 1 + Z.of_nat j ≤ limit)
          ∧ ((next s + j < length items)%nat → limit ≤ active s - 1 + Z.of_nat j)
          ∧ ((length items ≤ next s)%nat → j = 0%nat)
    end.
Proof.
  unfold complete. case_bool_decide as Hin; [|done].
  destruct (items !! idx) as [item|] eqn:Hitem; [|done].
  intros [= <-]. exists item. split_and!; [done..|].
  destruct (mapper item idx) as [r|err].
  - unfold on_fulfilled. simpl.
    destruct (bool_decide (length items ≤ next s)%nat && bool_decide (active s - 1 = 0)) eqn:E.
    + exists 0%nat. apply andb_true_iff in E as [E1%bool_decide_eq_true _].
      rewrite Nat.add_0_r, Z.add_0_r, app_nil_r. unfold settle; simpl.
      split_and!; [by destruct (settled s)|by left|lia|done].
    + match goal with |- context [Pool.launch _ _ ?s1] => destruct (launch_spec s1) as (j & -> & Hj & Hb) end.
      simpl in *. exists j. split_and!; [done..|].
      intros Hle. destruct Hj as [->|Hj]; [done|]. lia.
  - unfold on_rejected, settle. simpl. by destruct (settled s).
Qed.

#[local] Abbreviation Invariant := (Invariant items limit mapper).

Lemma fulfilled_not_rejected k r : fulfilled k r → ¬ rejected k.
Proof. intros (item & Hi & Hm) (item' & err & Hi' & Hm'). congruence. Qed.

Lemma fulfilled_inj k r r' : fulfilled k r → fulfilled k r' → r = r'.
Proof. intros (item & Hi & Hm) (item' & Hi' & Hm'). congruence. Qed.

Lemma runLimited_Invariant : 1 ≤ limit → Invariant (runLimited items limit).
Proof.
  intros Hlimit. unfold runLimited.
  match goal with |- context [Pool.launch _ _ ?s0] =>
    destruct (launch_spec s0) as (j & -> & Hj & Hb) end.
  simpl in *.
  match goal with |- Pool.Invariant _ _ _ ?s => set (s1 := s) end.
  assert (∀ k, ¬ completed s1 k) as Hnone.
  { intros k [Hk Hnot]; simpl in *. apply Hnot, elem_of_seq. lia. }
  split; simpl.
  - destruct Hj as [->|Hj]; lia.
  - apply length_replicate.
  - apply NoDup_seq.
  - intros i Hi%elem_of_seq. lia.
  - rewrite length_seq. lia.
  - destruct Hj as [->|Hj]; lia.
  - intros Hlt. specialize (Hb Hlt). destruct Hj as [->|Hj]; lia.
  - intros k Hk. by apply Hnone in Hk.
  - intros k r [[=] _]%lookup_replicate.
  - intros (k & Hk & _). by apply Hnone in Hk.
  - intros _. by rewrite length_seq.
  - done.
  - done.
  - intros _ _. destruct items as [|item rest] eqn:E; [by right|left].
    destruct j as [|j]; [|done]. simpl in Hb. lia.
Qed.

Lemma complete_Invariant idx (s s' : State) :
  Invariant s → complete idx s = Some s' → Invariant s'.
Proof.
  intros Hinv Hc. destruct (complete_shape idx s s' Hc) as (item & Hin & Hitem & Hshape).
  pose proof (length_filter_ne _ _ (inv_nodup _ _ _ _ Hinv) Hin) as Hlen.
  pose proof (inv_launched _ _ _ _ Hinv idx Hin) as Hidx.
  pose proof (inv_active_lo _ _ _ _ Hinv) as Hlo.
  pose proof (inv_active_hi _ _ _ _ Hinv) as Hhi.
  pose proof (inv_next _ _ _ _ Hinv) as Hnext.
  set (fl := filter (fun i => i ≠ idx) (in_flight s)) in *.
  assert (∀ k, k ∈ fl ↔ k ≠ idx ∧ k ∈ in_flight s) as Hfl.
  { intros k. unfold fl. by rewrite list_elem_of_filter. }
  destruct (mapper item idx) as [r|err] eqn:Hm.
  - (* fulfilled *)
    destruct Hshape as (j & -> & Hj & Hb & Hj0).
    assert (fulfilled idx r) as Hful by (by exists item).
    match goal with |- Pool.Invariant _ _ _ ?s => set (s1 := s) end.
    assert (∀ k, completed s1 k ↔ k = idx ∨ completed s k) as Hcomp.
    { intros k. unfold completed; simpl. rewrite elem_of_app, Hfl, elem_of_seq. split.
      - intros [Hk Hnot]. destruct (decide (k = idx)) as [->|Hne]; [by left|right].
        split; [|naive_solver]. destruct (decide (k < next s)%nat); [done|].
        exfalso. apply Hnot. right. lia.
      - intros [->|[Hk Hnot]]; (split; [lia|]).
        + intros [[? _]|[? _]]; [done|lia].
        + intros [[_ ?]|[? _]]; [done|lia]. }
    assert (idx < length (results s))%nat as Hidxlen.
    { rewrite (inv_length _ _ _ _ Hinv). lia. }
    split; simpl.
    + destruct Hj as [->|Hj]; lia.
    + rewrite length_insert. apply Hinv.
    + apply NoDup_app. split_and!.
      * apply NoDup_filter, Hinv.
      * intros k [_ Hk]%Hfl Hk'%elem_of_seq.
        apply (inv_launched _ _ _ _ Hinv) in Hk. lia.
      * apply NoDup_seq.
    + intros i [[_ Hi]%Hfl|Hi%elem_of_seq]%elem_of_app; [|lia].
      apply (inv_launched _ _ _ _ Hinv) in Hi. lia.
    + rewrite length_app, length_seq. lia.
    + destruct Hj as [->|Hj]; lia.
    + intros Hlt. specialize (Hb Hlt). destruct Hj as [->|Hj]; lia.
    + intros k [->|Hk]%Hcomp.
      * left. exists r. split; [done|]. by apply list_lookup_insert_eq.
      * destruct (decide (k = idx)) as [->|Hne].
        { left. exists r. split; [done|]. by apply list_lookup_insert_eq. }
        rewrite list_lookup_insert_ne by done. by apply Hinv.
    + intros k r'. destruct (decide (k = idx)) as [->|Hne].
      * rewrite list_lookup_insert_eq by done. by intros [= <-].
      * rewrite list_lookup_insert_ne by done. apply Hinv.
    + intros (k & [->|Hk]%Hcomp & Hrej).
      { by apply fulfilled_not_rejected in Hful. }
      assert (Z.of_nat (length (in_flight s)) < active s)
        by (apply Hinv; eauto).
      rewrite length_app, length_seq. lia.
    + intros Hclean.
      assert (active s = Z.of_nat (length (in_flight s))).
      { apply Hinv. intros k Hk. apply Hclean, Hcomp. by right. }
      rewrite length_app, length_seq. lia.
    + intros rs Hrs. case_match eqn:Hbr.
      * apply andb_true_iff in Hbr as [Hb1%bool_decide_eq_true Hb2%bool_decide_eq_true].
        destruct (settled s) as [v|] eqn:Hs.
        { simplify_eq. apply Hinv in Hs as (_ & Hnil & _). rewrite Hnil in Hin.
          by apply elem_of_nil in Hin. }
        simplify_eq. specialize (Hj0 Hb1) as ->. simpl.
        assert (fl = []) as Hflnil by (apply length_zero_iff_nil; lia).
        rewrite Hflnil. split_and!; [done|done|lia|].
        intros k [->|Hk]%Hcomp Hrej.
        { by apply fulfilled_not_rejected in Hful. }
        assert (Z.of_nat (length (in_flight s)) < active s) by (apply Hinv; eauto). lia.
      * apply Hinv in Hrs as (_ & Hnil & _). rewrite Hnil in Hin.
        by apply elem_of_nil in Hin.
    + intros e He.
      assert (settled s = Some (Throw e)) as Hs.
      { case_match; [|done]. destruct (settled s); by simplify_eq. }
      apply Hinv in Hs as (k & Hk & Hrej). exists k. split; [|done].
      apply Hcomp. by right.
    + intros Hnone Hclean. case_match eqn:Hbr; [by destruct (settled s)|].
      assert (active s = Z.of_nat (length (in_flight s))) as Hact.
      { apply Hinv. intros k Hk. apply Hclean, Hcomp. by right. }
      left. intros Hnil. apply (f_equal length) in Hnil.
      rewrite length_app, length_seq in Hnil. simpl in Hnil.
      apply andb_false_iff in Hbr as [Hbr%bool_decide_eq_false|Hbr%bool_decide_eq_false].
      * assert (next s + j < length items)%nat as Hlt by lia.
        specialize (Hb Hlt). lia.
      * lia.
  - (* rejected *)
    subst s'.
    assert (rejected idx) as Hrej by (by exists item, err).
    match goal with |- Pool.Invariant _ _ _ ?s => set (s1 := s) end.
    assert (∀ k, completed s1 k ↔ k = idx ∨ completed s k) as Hcomp.
    { intros k. unfold completed; simpl. rewrite Hfl. split.
      - intros [Hk Hnot]. destruct (decide (k = idx)) as [->|Hne]; [by left|right].
        naive_solver.
      - intros [->|[Hk Hnot]]; (split; [lia|]); naive_solver. }
    assert (completed s1 idx) as Hcidx.
    { apply Hcomp. by left. }
    split; simpl.
    + done.
    + apply Hinv.
    + apply NoDup_filter, Hinv.
    + intros i [_ Hi]%Hfl. by apply Hinv.
    + lia.
    + done.
    + apply Hinv.
    + intros k [->|Hk]%Hcomp; [by right|by apply Hinv].
    + apply Hinv.
    + intros _. lia.
    + intros Hclean. exfalso. by apply (Hclean idx).
    + intros rs Hrs. destruct (settled s) as [v|] eqn:Hs; [|done]. simplify_eq.
      apply Hinv in Hs as (_ & Hnil & _). rewrite Hnil in Hin. by apply elem_of_nil in Hin.
    + intros e _. by exists idx.
    + intros _ Hclean. exfalso. by apply (Hclean idx).
Qed.


Lemma complete_settled_calls idx (s s' : State) :
  Invariant s → complete idx s = Some s' → settled_calls s' = settled_calls s + 1.
Proof.
  intros Hinv Hc. destruct (complete_shape idx s s' Hc) as (item & Hin & Hitem & Hshape).
  pose proof (length_filter_ne _ _ (inv_nodup _ _ _ _ Hinv) Hin) as Hlen.
  unfold settled_calls. destruct (mapper item idx).
  - destruct Hshape as (j & -> & _). simpl. rewrite length_app, length_seq. lia.
  - subst s'. simpl. lia.
Qed.

Lemma runLimited_settled_calls : settled_calls (runLimited items limit : State) = 0.
Proof.
  unfold runLimited.
  match goal with |- context [Pool.launch _ _ ?s0] =>
    destruct (launch_spec s0) as (j & -> & _) end.
  unfold settled_calls. simpl. rewrite length_seq. lia.
Qed.

Lemma run_reaches order (s s' : State) :
  Invariant s → run items limit mapper order s = Some s' →
  Invariant s' ∧ rtc step s s' ∧ settled_calls s' = settled_calls s + Z.of_nat (length order).
Proof.
  revert s. induction order as [|idx order IH]; intros s Hinv; simpl.
  - intros [= <-]. split_and!; [done|constructor|lia].
  - destruct (complete idx s) as [s1|] eqn:Hc; [|done]. intros Hrun.
    pose proof (complete_Invariant idx s s1 Hinv Hc) as Hinv1.
    destruct (IH s1 Hinv1 Hrun) as (? & ? & ->).
    rewrite (complete_settled_calls idx s s1) by done.
    split_and!; [done| |lia]. eapply rtc_l; [by exists idx|done].
Qed.


(** When no call fails, the pool cannot stall, and it resolves exactly
    when every call has settled. *)
Lemma run_progress order (s : State) :
  1 ≤ limit → items ≠ [] → (∀ k, ¬ rejected k) →
  run items limit mapper order (runLimited items limit) = Some s →
  (length order ≤ length items)%nat
  ∧ (length order = length items ↔ ∃ rs, settled s = Some (Ok rs))
  ∧ ((length order < length items)%nat → ∃ idx s', complete idx s = Some s').
Proof.
  intros Hlimit Hne Hall Hrun.
  destruct (run_reaches order _ s (runLimited_Invariant Hlimit) Hrun) as (Hinv & _ & Hcalls).
  rewrite runLimited_settled_calls in Hcalls. unfold settled_calls in Hcalls.
  pose proof (inv_next _ _ _ _ Hinv) as Hnext.
  assert (length order = length items → ∃ rs, settled s = Some (Ok rs)) as Hdone.
  { intros Hlen. destruct (settled s) as [[rs|e]|] eqn:Hs; [by eexists| |].
    - apply Hinv in Hs as (k & _ & Hrej). by apply Hall in Hrej.
    - apply Hinv in Hs as [Hfl|?]; [|done|by intros k _].
      destruct (in_flight s); [done|]. simpl in Hcalls. lia. }
  split_and!; [lia|split; [done|]|].
  - intros [rs Hs]. apply Hinv in Hs as (_ & Hnil & Hn & _).
    rewrite Hnil in Hcalls. simpl in Hcalls. lia.
  - intros Hlt. destruct (settled s) as [[rs|e]|] eqn:Hs.
    + apply Hinv in Hs as (_ & Hnil & Hn & _). rewrite Hnil in Hcalls. simpl in Hcalls. lia.
    + apply Hinv in Hs as (k & _ & Hrej). by apply Hall in Hrej.
    + apply Hinv in Hs as [Hfl|?]; [|done|by intros k _].
      destruct (in_flight s) as [|idx fl] eqn:Hin; [done|].
      assert (idx ∈ in_flight s) as Hidx by (rewrite Hin; left).
      pose proof (inv_launched _ _ _ _ Hinv idx Hidx) as Hidxlt.
      destruct (lookup_lt_is_Some_2 items idx) as [item Hitem]; [lia|].
      exists idx. unfold Pool.complete.
      rewrite bool_decide_eq_true_2 by done. rewrite Hitem. eauto.
Qed.

End PoolFacts.

(** ** The claims about the worker pool *)
Section PoolClaims.
Import Pool.
#[local] Open Scope string_scope.
#[local] Open Scope Z_scope.



(** The example of the specification, with the second call settling
    first. *)
Example runLimited_example :
  settled <$> run ["a"; "b"; "c"; "d"; "e"] 2 suffix_worker [1; 0; 3; 2; 4]%nat
                  (runLimited ["a"; "b"; "c"; "d"; "e"] 2)
  = Some (Some (Ok [Some "a!"; Some "b!"; Some "c!"; Some "d!"; Some "e!"])).
Proof. reflexivity. Qed.

(** C10: for every limit and worker, the pool over the empty item list
    is created pending, no turn of the event loop can change it, and so
    every state it reaches is pending: its promise is neither resolved
    nor rejected.  The batch image conversion of an empty array of inputs
    (once the output format has been accepted) and the rasterization of a
    document of no pages both await exactly this pool. *)
Theorem empty_pool_never_settles {Item R : Type} (limit : Z)
    (mapper : Item → nat → Outcome R) :
  settled (runLimited (@nil Item) limit : State R) = None
  ∧ (∀ s', ¬ step [] limit mapper (runLimited (@nil Item) limit) s')
  ∧ (∀ s, rtc (step [] limit mapper) (runLimited (@nil Item) limit) s →
          s = runLimited (@nil Item) limit ∧ settled s = None)
  ∧ (∀ outputFormat option_concurrency,
       ImageConverter.validateFormats [] outputFormat = Ok () →
       ImageConverter.convertImage_batch [] outputFormat option_concurrency
       = Ok (runLimited (@nil string)
               (ImageConverter.batch_concurrency option_concurrency) : State R))
  ∧ (∀ (Page : Type) concurrency,
       DocumentConverter.pdfToImagesViaLibreOffice (@nil Page) concurrency
       = Ok (runLimited (@nil (Z * list Page)) concurrency)).
Proof.
  assert (∀ s', ¬ step [] limit mapper (runLimited (@nil Item) limit) s') as Hstuck.
  { intros s' [idx Hc]. unfold complete in Hc. simpl in Hc. done. }
  split_and!; [done|done| | |done].
  - intros s Hs. apply rtc_inv in Hs as [<-|(s1 & Hstep & _)]; [done|].
    by apply Hstuck in Hstep.
  - intros fmt conc Hv. unfold ImageConverter.convertImage_batch. by rewrite Hv.
Qed.

Lemma empty_pool_never_settles_witness :
  ImageConverter.convertImage_batch [] "png" (Some 2)
  = Ok (runLimited (@nil string) (ImageConverter.batch_concurrency (Some 2)) : State string).
Proof.
  apply (empty_pool_never_settles 2 suffix_worker). reflexivity.
Defined.

End PoolClaims.


(** * Further properties of the code *)

(** ** Page ranges, continued *)
Section PageRangeMore.
Import JsString DocumentConverter.

Lemma ascending_NoDup (l : list Z) : StronglySorted Z.lt l → NoDup l.
Proof.
  induction 1 as [|x l _ IH Hx]; [constructor|].
  constructor; [|done]. intros Hin. rewrite Forall_forall in Hx.
  specialize (Hx x Hin). lia.
Qed.

(** A strictly ascending list is determined by its elements. *)
Lemma ascending_ext (l1 l2 : list Z) :
  StronglySorted Z.lt l1 → StronglySorted Z.lt l2 →
  (∀ x, x ∈ l1 ↔ x ∈ l2) → l1 = l2.
Proof.
  intros H1 H2 Hel. apply (StronglySorted_unique_strong Z.lt); [|done..|].
  - intros; lia.
  - apply NoDup_Permutation; auto using ascending_NoDup.
Qed.

Lemma seqZ_ascending (m : Z) (k : nat) : StronglySorted Z.lt (seqZ m (Z.of_nat k)).
Proof.
  revert m. induction k as [|k IH]; intros m.
  - rewrite seqZ_nil by lia. constructor.
  - rewrite seqZ_cons by lia.
    replace (Z.pred (Z.of_nat (S k))) with (Z.of_nat k) by lia.
    constructor; [apply IH|]. apply Forall_seqZ. lia.
Qed.

Lemma seqZ_ascending' (m n : Z) : StronglySorted Z.lt (seqZ m n).
Proof.
  destruct (decide (0 ≤ n)).
  - rewrite <- (Z2Nat.id n) by done. apply seqZ_ascending.
  - rewrite seqZ_nil by lia. constructor.
Qed.

Lemma ascending_filter (P : Z → Prop) `{!∀ x, Decision (P x)} (l : list Z) :
  StronglySorted Z.lt l → StronglySorted Z.lt (filter P l).
Proof.
  induction 1 as [|x l _ IH Hx]; [constructor|].
  rewrite filter_cons. case_decide; [|done].
  constructor; [done|]. rewrite Forall_forall in Hx |- *.
  intros y [_ Hy]%list_elem_of_filter. auto.
Qed.

Lemma split_comma_nonempty s : split_comma s ≠ [].
Proof.
  destruct s as [|c r]; simpl; [done|].
  case_bool_decide; [done|]. by destruct (split_comma r).
Qed.

Lemma split_comma_app a b :
  split_comma (a ++ ","%char :: b) = split_comma a ++ split_comma b.
Proof.
  induction a as [|c a IH]; simpl.
  - try rewrite bool_decide_eq_true_2 by done; done.
  - case_bool_decide; [by rewrite IH|]. rewrite IH.
    pose proof (split_comma_nonempty a). by destruct (split_comma a).
Qed.

Lemma split_comma_plain s : ","%char ∉ s → split_comma s = [s].
Proof.
  induction s as [|c r IH]; simpl; [done|].
  intros [Hc Hr]%not_elem_of_cons. rewrite bool_decide_eq_false_2 by done.
  by rewrite IH.
Qed.

Lemma chunks_app a b : chunks (a ++ ","%char :: b) = chunks a ++ chunks b.
Proof. unfold chunks. by rewrite split_comma_app, fmap_app, filter_app. Qed.

Lemma list_ascii_of_string_app (a b : string) :
  list_ascii_of_string (a +:+ b) = list_ascii_of_string a ++ list_ascii_of_string b.
Proof. induction a as [|c a IH]; simpl; [done|]. by rewrite IH. Qed.

Lemma parsePageRange_comma (a b : string) (n p : Z) :
  p ∈ parsePageRange (a +:+ "," +:+ b) n ↔ p ∈ parsePageRange a n ∨ p ∈ parsePageRange b n.
Proof.
  unfold parsePageRange. rewrite !list_ascii_of_string_app. simpl.
  rewrite !parsePageRange_elem, chunks_app. setoid_rewrite elem_of_app. naive_solver.
Qed.

Lemma digit_run_reverse d : digit_run d → digit_run (reverse d).
Proof.
  intros [Hne Hd]. split.
  - intros H. apply Hne. apply (f_equal reverse) in H.
    by rewrite reverse_involutive in H.
  - by apply Forall_reverse.
Qed.

Lemma drop_space_digits_app d rest :
  digit_run d → drop_while is_space (d ++ rest) = d ++ rest.
Proof.
  intros [Hne Hd]. destruct Hd as [|c d Hc _]; [done|].
  simpl. by rewrite (digit_not_space c).
Qed.

Lemma pair_chunk_trim d1 d2 :
  digit_run d1 → digit_run d2 → trim (d1 ++ "-"%char :: d2) = d1 ++ "-"%char :: d2.
Proof.
  intros H1 H2. unfold trim. rewrite drop_space_digits_app by done.
  rewrite reverse_app, reverse_cons, <- app_assoc.
  rewrite drop_space_digits_app by (by apply digit_run_reverse).
  rewrite (app_assoc (reverse d2)), <- reverse_cons, <- reverse_app.
  apply reverse_involutive.
Qed.

Lemma digit_not_comma c : is_digit c = true → c ≠ ","%char.
Proof.
  unfold is_digit. rewrite bool_decide_eq_true. intros H ->.
  vm_compute in H. destruct H as [H _]. by apply H.
Qed.

Lemma pair_chunk_chunks d1 d2 :
  digit_run d1 → digit_run d2 →
  chunks (d1 ++ "-"%char :: d2) = [d1 ++ "-"%char :: d2].
Proof.
  intros H1 H2. unfold chunks. rewrite split_comma_plain.
  - simpl. rewrite pair_chunk_trim by done.
    rewrite filter_cons_True; [done|]. destruct H1 as [Hne _]. by destruct d1.
  - destruct H1 as [_ H1], H2 as [_ H2]. rewrite Forall_forall in H1, H2.
    rewrite elem_of_app, elem_of_cons. intros [Hc|[Hc|Hc]].
    + by apply H1, digit_not_comma in Hc.
    + done.
    + by apply H2, digit_not_comma in Hc.
Qed.

(** The pages of a [start-end] chunk, bounds applied. *)
Lemma pair_chunk_pages d1 d2 n :
  digit_run d1 → digit_run d2 →
  parsePageRange_chars (d1 ++ "-"%char :: d2) n
  = seqZ (Z.max 1 (Z.min (digits_value d1) (digits_value d2)))
         ((if bool_decide (n = 0) then Z.max (digits_value d1) (digits_value d2)
           else Z.min n (Z.max (digits_value d1) (digits_value d2)))
          - Z.max 1 (Z.min (digits_value d1) (digits_value d2)) + 1).
Proof.
  intros H1 H2. apply ascending_ext.
  - apply parsePageRange_ascending.
  - apply seqZ_ascending'.
  - intros p. rewrite parsePageRange_elem, pair_chunk_chunks, elem_of_seqZ by done.
    setoid_rewrite list_elem_of_singleton. split.
    + intros (c & -> & Hc & Hok). apply chunk_page_pair in Hc; [|done..].
      apply page_ok_spec in Hok. case_bool_decide; lia.
    + intros Hp. eexists. split; [done|]. rewrite chunk_page_pair, page_ok_spec by done.
      case_bool_decide; lia.
Qed.



(** X2: A comma joins specs into their union: the pages of ["a,b"] are those
    of [a] together with those of [b], so the order of the two halves does
    not matter and repeating a spec adds nothing. *)
Theorem parsePageRange_union (a b : string) (n : Z) :
  (∀ p, p ∈ parsePageRange (a +:+ "," +:+ b) n
        ↔ p ∈ parsePageRange a n ∨ p ∈ parsePageRange b n)
  ∧ parsePageRange (a +:+ "," +:+ b) n = parsePageRange (b +:+ "," +:+ a) n
  ∧ parsePageRange (a +:+ "," +:+ a) n = parsePageRange a n.
Proof.
  split_and!.
  - intros p. apply parsePageRange_comma.
  - apply ascending_ext; [apply parsePageRange_ascending..|].
    intros p. rewrite !parsePageRange_comma. naive_solver.
  - apply ascending_ext; [apply parsePageRange_ascending..|].
    intros p. rewrite !parsePageRange_comma. naive_solver.
Qed.

(** X3: The page count only cuts the result: for a count other than 0,
    [parsePageRange(s, n)] is [parsePageRange(s, 0)], the resolution with
    no upper bound, without the pages beyond [n]. *)
Theorem parsePageRange_bound_is_filter (s : string) (n : Z) :
  n ≠ 0 →
  parsePageRange s n = filter (fun p => p ≤ n) (parsePageRange s 0).
Proof.
  intros Hn. apply ascending_ext.
  - apply parsePageRange_ascending.
  - apply ascending_filter, parsePageRange_ascending.
  - intros p. unfold parsePageRange.
    rewrite list_elem_of_filter, !parsePageRange_elem.
    setoid_rewrite page_ok_spec. naive_solver lia.
Qed.

Lemma parsePageRange_bound_is_filter_witness :
  parsePageRange "8-12,2" 10 = filter (fun p => p ≤ 10) (parsePageRange "8-12,2" 0).
Proof. apply (parsePageRange_bound_is_filter "8-12,2" 10). discriminate. Defined.

End PageRangeMore.

(** ** Subsets, merges and splits *)
Section DocumentMore.
Import JsString DocumentConverter DocumentOps.
Context {Page : Type}.
Implicit Types (srcDoc : list Page) (pages : list Z).

Lemma selected_is_omap srcDoc pages (copied : list Page) :
  Forall2 (fun p page => srcDoc !! Z.to_nat (p - 1) = Some page)
          (filter (in_document srcDoc) pages) copied →
  copied = omap (page_at srcDoc) pages.
Proof.
  revert copied. induction pages as [|p ps IH]; intros copied.
  - rewrite filter_nil. by intros ->%Forall2_nil_inv_l.
  - rewrite filter_cons. simpl. unfold page_at at 1. case_decide as Hin.
    + intros (page & rest & Hp & Hrest & ->)%Forall2_cons_inv_l.
      unfold in_document in Hin. rewrite bool_decide_eq_true_2 by lia.
      rewrite Hp. simpl. f_equal. by apply IH.
    + intros Hall. unfold in_document in Hin. case_bool_decide.
      * rewrite lookup_ge_None_2 by lia. by apply IH.
      * by apply IH.
Qed.

(** [subsetPdf] on a non-empty page list, as a function. *)
Lemma subsetPdf_omap srcDoc pages :
  pages ≠ [] → subsetPdf srcDoc pages = Ok (omap (page_at srcDoc) pages).
Proof.
  intros Hne. destruct (subsetPdf_selected srcDoc pages Hne) as (copied & -> & Hall).
  f_equal. by apply selected_is_omap.
Qed.

Lemma omap_page_at_all srcDoc :
  omap (page_at srcDoc) (seqZ 1 (Z.of_nat (length srcDoc))) = srcDoc.
Proof.
  destruct srcDoc as [|page rest] eqn:E; [done|]. rewrite <- E.
  assert (seqZ 1 (Z.of_nat (length srcDoc)) ≠ []) as Hne.
  { rewrite E. simpl length. rewrite seqZ_cons by lia. done. }
  pose proof (subsetPdf_omap srcDoc _ Hne) as Hsub.
  pose proof (subsetPdf_all srcDoc) as Hall.
  unfold subsetPdf in Hsub, Hall.
  replace ((fun i : Z => i + 1) <$> seqZ 0 (Z.of_nat (length srcDoc)))
    with (seqZ 1 (Z.of_nat (length srcDoc))) in Hall.
  2:{ rewrite <- (fmap_add_seqZ 1 0). apply list_fmap_ext. intros; lia. }
  destruct (seqZ 1 (Z.of_nat (length srcDoc))) eqn:Es; [done|].
  rewrite Hsub in Hall. by injection Hall.
Qed.

Lemma copyPages_all srcDoc : copyPages srcDoc (getPageIndices srcDoc) = Ok srcDoc.
Proof.
  unfold copyPages, getPageIndices.
  match goal with |- context [mapM ?f ?l] => assert (mapM f l = Some srcDoc) as -> end;
    [|done].
  apply mapM_Some_2, Forall2_same_length_lookup. split.
  - rewrite length_seqZ. lia.
  - intros i x y Hx Hy. apply lookup_seqZ in Hx as [-> Hlt].
    rewrite bool_decide_eq_true_2 by lia. by rewrite Z.add_0_l, Nat2Z.id.
Qed.

Lemma mergePdfs_fold (docs : list (list Page)) (dst : list Page) :
  fold_left (fun acc src =>
               match acc with
               | Ok dst =>
                   match copyPages src (getPageIndices src) with
                   | Ok copied => Ok (dst ++ copied)
                   | Throw e => Throw e
                   end
               | Throw e => Throw e
               end)
            docs (Ok dst)
  = Ok (dst ++ concat docs).
Proof.
  revert dst. induction docs as [|doc docs IH]; intros dst; simpl.
  - by rewrite app_nil_r.
  - rewrite copyPages_all, IH. by rewrite <- app_assoc.
Qed.

Lemma mergePdfs_concat (docs : list (list Page)) : mergePdfs docs = Ok (concat docs).
Proof. unfold mergePdfs. by rewrite mergePdfs_fold. Qed.

(** X4: Merging copies every page of every input, in the order of the
    inputs and, within an input, in its page order: the result is the
    concatenation, its page count is the sum of the page counts, and
    merging never fails on documents that loaded. *)
Theorem mergePdfs_is_concatenation (docs : list (list Page)) :
  mergePdfs docs = Ok (concat docs)
  ∧ (∀ merged, mergePdfs docs = Ok merged →
       length merged = sum_list (length <$> docs)
       ∧ ∀ front back, docs = front ++ back →
           mergePdfs front = Ok (take (length (concat front)) merged)
           ∧ mergePdfs back = Ok (drop (length (concat front)) merged)).
Proof.
  split; [apply mergePdfs_concat|].
  rewrite mergePdfs_concat. intros merged [= <-]. split.
  - induction docs as [|doc docs IH]; simpl; [done|]. rewrite length_app, IH. done.
  - intros front back ->. rewrite !mergePdfs_concat, concat_app.
    by rewrite take_app_length, drop_app_length.
Qed.

(** X5: Selecting pages and merging commute: merging the subsets taken with
    non-empty page lists [ps1] and [ps2] gives the subset taken with
    [ps1 ++ ps2]; in particular cutting a document after page [k] and
    merging the two parts gives the document back. *)
Theorem subset_then_merge srcDoc (ps1 ps2 : list Z) :
  ps1 ≠ [] → ps2 ≠ [] →
  ∃ part1 part2,
    subsetPdf srcDoc ps1 = Ok part1 ∧ subsetPdf srcDoc ps2 = Ok part2
    ∧ mergePdfs [part1; part2] = subsetPdf srcDoc (ps1 ++ ps2)
    ∧ (∀ k : nat, (0 < k < length srcDoc)%nat →
         ps1 = seqZ 1 (Z.of_nat k) →
         ps2 = seqZ (1 + Z.of_nat k) (Z.of_nat (length srcDoc - k)) →
         mergePdfs [part1; part2] = Ok srcDoc).
Proof.
  intros H1 H2. exists (omap (page_at srcDoc) ps1), (omap (page_at srcDoc) ps2).
  assert (ps1 ++ ps2 ≠ []) as H12 by (by destruct ps1).
  rewrite !subsetPdf_omap, mergePdfs_concat by done. simpl.
  rewrite app_nil_r, omap_app. split_and!; [done..|].
  intros k Hk -> ->. f_equal. rewrite <- omap_app, <- seqZ_app by lia.
  replace (Z.of_nat k + Z.of_nat (length srcDoc - k)) with (Z.of_nat (length srcDoc)) by lia.
  apply omap_page_at_all.
Qed.

End DocumentMore.

Section DocumentMoreExamples.
Import JsString DocumentConverter DocumentOps.

Lemma subset_then_merge_witness :
  ∃ part1 part2,
    subsetPdf ["a"; "b"; "c"]%string [1; 2] = Ok part1
    ∧ subsetPdf ["a"; "b"; "c"]%string [3] = Ok part2
    ∧ mergePdfs [part1; part2] = subsetPdf ["a"; "b"; "c"]%string ([1; 2] ++ [3]).
Proof.
  destruct (subset_then_merge ["a"; "b"; "c"]%string [1; 2] [3])
    as (p1 & p2 & ? & ? & ? & _); [discriminate..|].
  by exists p1, p2.
Defined.

End DocumentMoreExamples.

(** ** [convertDocument] *)
Section ConvertDocumentFacts.
Import JsString Formats DocumentConverter DocumentOps.
Context {Page : Type}.
Implicit Types (fs : string → option (File Page)) (o : Options).

Lemma validateIO_passes inputs outputFormat :
  validateIO inputs outputFormat = None →
  normalize outputFormat ∈ ["pdf"; "docx"; "txt"; "html"; "epub"]%string
  ∧ Forall (fun p => normalizeExt p
                     ∈ ["pdf"; "docx"; "doc"; "txt"; "rtf"; "odt"; "html"; "htm"; "epub"]%string)
           inputs.
Proof.
  unfold validateIO. case_bool_decide as Hout; [|done].
  destruct (List.find _ inputs) eqn:Hfind; [done|]. intros _. split.
  - unfold document_SUPPORTED_OUTPUTS in Hout. by rewrite elem_of_list_to_set in Hout.
  - apply Forall_forall. intros p Hp%list_elem_of_In.
    apply (find_none _ _ Hfind) in Hp. apply negb_false_iff, bool_decide_eq_true in Hp.
    unfold document_SUPPORTED_INPUTS in Hp. by rewrite elem_of_list_to_set in Hp.
Qed.

Lemma validateIO_error inputs outputFormat e :
  validateIO inputs outputFormat = Some e →
  (∃ f, e = UnsupportedOutputFormat f) ∨ (∃ x f, e = UnsupportedInputFormat x f).
Proof.
  unfold validateIO. case_bool_decide; [|intros [= <-]; eauto].
  destruct (List.find _ inputs); [|done]. intros [= <-]; eauto.
Qed.

Lemma ensureOutputExt_validated outputFormat :
  normalize outputFormat ∈ ["pdf"; "docx"; "txt"; "html"; "epub"]%string →
  ensureOutputExt outputFormat = normalize outputFormat.
Proof.
  unfold ensureOutputExt. rewrite !elem_of_cons, elem_of_nil.
  intros [->|[->|[->|[->|[->|[]]]]]]; reflexivity.
Qed.

Lemma load_all_error fs inputs e :
  load_all fs inputs = Failed e → ∃ p, e = NotAPdf p.
Proof.
  induction inputs as [|p rest IH]; simpl; [done|].
  unfold load at 1. destruct (fs p) as [[pages|]|]; [|intros [= <-]; eauto..].
  destruct (load_all fs rest); [done|]. intros [= <-]. by apply IH.
Qed.

Lemma load_all_docs fs inputs (docs : list (list Page)) :
  Forall2 (fun p doc => fs p = Some (PdfFile doc)) inputs docs →
  load_all fs inputs = Done docs.
Proof.
  induction 1 as [|p doc inputs docs Hp _ IH]; simpl; [done|].
  unfold load. by rewrite Hp, IH.
Qed.

Lemma of_result_error {A : Type} (f : A → Output Page) (r : Result A) e :
  of_result f r = Failed e → ∃ msg, e = Thrown msg.
Proof. destruct r; simpl; [done|]. intros [= <-]; eauto. Qed.

Lemma with_libreoffice_error loPath input target e :
  with_libreoffice (Page := Page) loPath input target = Failed e → e = LibreOfficeNotFound.
Proof. destruct loPath; simpl; [done|]. by intros [= <-]. Qed.

Lemma convert_pdf_error fs loPath input outFmt o e :
  convert_pdf fs loPath input outFmt o = Failed e →
  (∃ p, e = NotAPdf p) ∨ (∃ msg, e = Thrown msg) ∨ e = LibreOfficeNotFound.
Proof.
  unfold convert_pdf, load. intros H.
  repeat (case_match; simplify_eq; eauto);
    try (apply of_result_error in H; eauto);
    try (apply with_libreoffice_error in H; eauto).
Qed.

(** X7: The last [throw] of [convertDocument] is dead code: whatever the
    inputs, the format and the options, it never fails with "Unsupported
    conversion path" - every pair of input and output formats that
    [validateIO] lets through has a branch. *)
Theorem convertDocument_covers_validated_pairs fs loPath inputs outputFormat o :
  ∀ inputExt outFmt,
    convertDocument fs loPath inputs outputFormat o
    ≠ Failed (UnsupportedConversionPath inputExt outFmt).
Proof.
  intros x y. unfold convertDocument.
  destruct (validateIO inputs outputFormat) as [e|] eqn:Hv.
  { apply validateIO_error in Hv as [[f ->]|(a & b & ->)]; done. }
  apply validateIO_passes in Hv as [Hout Hin].
  destruct (List.find _ inputs); [done|].
  rewrite ensureOutputExt_validated by done.
  destruct (opt_merge o).
  { case_match; [|done]. destruct (load_all fs inputs) eqn:Hl.
    - intros (msg & [=])%of_result_error.
    - apply load_all_error in Hl as [p ->]. done. }
  destruct inputs as [|input rest]; [done|].
  apply Forall_inv in Hin. simpl in Hin.
  rewrite !elem_of_cons, elem_of_nil in Hout.
  rewrite !elem_of_cons, elem_of_nil in Hin.
  destruct Hin as [->|[->|[->|[->|[->|[->|[->|[->|[->|[]]]]]]]]]];
    destruct Hout as [->|[->|[->|[->|[->|[]]]]]]; simpl;
    try (intros H; apply with_libreoffice_error in H; done);
    try (intros H; apply convert_pdf_error in H as [[? ?]|[[? ?]|?]]; done);
    done.
Qed.

(** X8: Without LibreOffice the conversions that can still succeed are the
    ones this module does itself, merging, splitting and PDF to PDF, and
    DOCX to HTML through mammoth; nothing is rasterized and nothing else
    is converted. *)
Theorem convertDocument_without_libreoffice fs inputs outputFormat o out :
  convertDocument fs None inputs outputFormat o = Done out →
  match out with
  | OutDoc _ | OutParts _ => True
  | OutEngine Mammoth input target =>
      head inputs = Some input ∧ normalizeExt input = "docx"%string ∧ target = "html"%string
  | OutEngine LibreOffice _ _ | OutImages _ => False
  end.
Proof.
  unfold convertDocument, convert_pdf, with_libreoffice, of_result. intros H.
  repeat (case_match; simplify_eq; try done).
  match goal with H : _ && _ = true |- _ =>
    apply andb_true_iff in H as [?%bool_decide_eq_true _] end.
  done.
Qed.

Lemma find_none_Forall {A : Type} (f : A → bool) (l : list A) :
  Forall (fun x => f x = false) l → List.find f l = None.
Proof. induction 1 as [|x l Hx _ IH]; simpl; [done|]. by rewrite Hx. Qed.

Lemma validateIO_ok inputs outputFormat :
  normalize outputFormat ∈ document_SUPPORTED_OUTPUTS →
  Forall (fun p => normalizeExt p ∈ document_SUPPORTED_INPUTS) inputs →
  validateIO inputs outputFormat = None.
Proof.
  intros Hout Hin. unfold validateIO. rewrite bool_decide_eq_true_2 by done.
  rewrite find_none_Forall; [done|]. eapply Forall_impl; [exact Hin|].
  intros p Hp. simpl. by rewrite bool_decide_eq_true_2.
Qed.




(** X10: With the [merge] option every input must be a .pdf: then the result
    is the concatenation of the inputs in their order, whatever the
    (supported) output format and the other options; one input with
    another extension makes the conversion fail before anything is read. *)
Theorem convertDocument_merge fs loPath inputs outputFormat o :
  normalize outputFormat ∈ document_SUPPORTED_OUTPUTS →
  Forall (fun p => normalizeExt p ∈ document_SUPPORTED_INPUTS ∧ is_Some (fs p)) inputs →
  opt_merge o = true →
  (∀ docs, Forall2 (fun p doc => normalizeExt p = "pdf"%string ∧ fs p = Some (PdfFile doc))
                   inputs docs →
     convertDocument fs loPath inputs outputFormat o = Done (OutDoc (concat docs)))
  ∧ (Exists (fun p => normalizeExt p ≠ "pdf"%string) inputs →
     convertDocument fs loPath inputs outputFormat o = Failed MergeRequiresPdf).
Proof.
  intros Hout Hin Hmerge.
  assert (∀ rest : Attempt (Output Page),
            convertDocument fs loPath inputs outputFormat o
            = if forallb (fun f => bool_decide (normalizeExt f = "pdf"%string)) inputs
              then match load_all fs inputs with
                   | Done docs => of_result OutDoc (mergePdfs docs)
                   | Failed e => Failed e
                   end
              else Failed MergeRequiresPdf) as Hshape.
  { intros _. unfold convertDocument. rewrite validateIO_ok; [|done|].
    2:{ eapply Forall_impl; [exact Hin|]. by intros p [? _]. }
    rewrite find_none_Forall.
    2:{ eapply Forall_impl; [exact Hin|]. intros p [_ Hp]. simpl.
        by rewrite bool_decide_eq_true_2. }
    by rewrite Hmerge. }
  rewrite (Hshape (Failed NoInput)). split.
  - intros docs Hdocs.
    assert (forallb (fun f => bool_decide (normalizeExt f = "pdf"%string)) inputs = true) as ->.
    { apply forallb_forall. intros p Hp%list_elem_of_In.
      apply list_elem_of_lookup in Hp as [i Hi].
      destruct (Forall2_lookup_l _ _ _ _ _ Hdocs Hi) as (doc & _ & Hext & _).
      by apply bool_decide_eq_true. }
    rewrite (load_all_docs fs inputs docs).
    + simpl. by rewrite mergePdfs_concat.
    + eapply Forall2_impl; [exact Hdocs|]. by intros p doc [_ ?].
  - intros Hex.
    assert (forallb (fun f => bool_decide (normalizeExt f = "pdf"%string)) inputs = false) as ->;
      [|done].
    apply not_true_iff_false. intros Hall. rewrite forallb_forall in Hall.
    apply Exists_exists in Hex as (p & Hp & Hne).
    apply list_elem_of_In, Hall, bool_decide_eq_true in Hp. done.
Qed.

End ConvertDocumentFacts.

Section ConvertDocumentExamples.
Import JsString Formats DocumentConverter DocumentOps.

Lemma convertDocument_without_libreoffice_witness :
  match OutDoc ["a1"; "a2"; "a3"; "b1"; "b2"]%string with
  | OutDoc _ | OutParts _ => True
  | OutEngine Mammoth input target =>
      head ["/up/a.pdf"; "/up/b.PDF"]%string = Some input
      ∧ normalizeExt input = "docx"%string ∧ target = "html"%string
  | OutEngine LibreOffice _ _ | OutImages _ => False
  end.
Proof.
  apply (convertDocument_without_libreoffice three_files
           ["/up/a.pdf"; "/up/b.PDF"]%string "pdf"
           (mkOptions true None None false false 4)).
  reflexivity.
Defined.


Lemma convertDocument_merge_witness :
  convertDocument three_files None ["/up/a.pdf"; "/up/b.PDF"]%string "txt"
    (mkOptions true None None false false 4)
  = Done (OutDoc ["a1"; "a2"; "a3"; "b1"; "b2"]%string).
Proof.
  refine (proj1 (convertDocument_merge three_files None ["/up/a.pdf"; "/up/b.PDF"]%string "txt"
                   (mkOptions true None None false false 4) _ _ _)
            [["a1"; "a2"; "a3"]; ["b1"; "b2"]]%string _).
  - by vm_compute.
  - constructor; [split; [by vm_compute|by eexists]|].
    constructor; [split; [by vm_compute|by eexists]|constructor].
  - reflexivity.
  - constructor; [by split|]. constructor; [by split|constructor].
Defined.

End ConvertDocumentExamples.

(** ** Splitting, then merging *)
Section SplitMerge.
Import JsString DocumentConverter DocumentOps.
Context {Page : Type}.

Lemma one_is_digit_run : digit_run ["1"%char].
Proof. split; [done|]. by repeat constructor. Qed.

(** X6: Cutting a document in two with [splitPdf] and merging the parts gives
    the document back: for [0 < k < n], with [n] the page count, the specs
    ["1-k"] and ["k+1-n"] give two parts, numbered 1 and 2, whose merge is
    the source. *)
Theorem splitPdf_then_mergePdfs (srcDoc : list Page) (k : nat) (dk dk1 dn : string) :
  (0 < k < length srcDoc)%nat →
  digit_run (list_ascii_of_string dk) →
  digits_value (list_ascii_of_string dk) = Z.of_nat k →
  digit_run (list_ascii_of_string dk1) →
  digits_value (list_ascii_of_string dk1) = Z.of_nat k + 1 →
  digit_run (list_ascii_of_string dn) →
  digits_value (list_ascii_of_string dn) = Z.of_nat (length srcDoc) →
  ∃ front back,
    splitPdf srcDoc (RangeArray ["1" +:+ "-" +:+ dk; dk1 +:+ "-" +:+ dn])
    = Ok [(1, front); (2, back)]
    ∧ mergePdfs [front; back] = Ok srcDoc.
Proof.
  intros Hk Hdk Hvk Hdk1 Hvk1 Hdn Hvn.
  exists (omap (page_at srcDoc) (seqZ 1 (Z.of_nat k))),
         (omap (page_at srcDoc) (seqZ (1 + Z.of_nat k) (Z.of_nat (length srcDoc - k)))).
  assert (parsePageRange_chars (list_ascii_of_string ("1" +:+ "-" +:+ dk))
            (Z.of_nat (length srcDoc)) = seqZ 1 (Z.of_nat k)) as H1.
  { rewrite !list_ascii_of_string_app.
    change (list_ascii_of_string "1") with ["1"%char].
    change (list_ascii_of_string "-" ++ list_ascii_of_string dk)
      with ("-"%char :: list_ascii_of_string dk).
    rewrite (pair_chunk_pages ["1"%char]) by (done || apply one_is_digit_run).
    rewrite Hvk. change (digits_value ["1"%char]) with 1.
    rewrite bool_decide_eq_false_2 by lia. f_equal; lia. }
  assert (parsePageRange_chars (list_ascii_of_string (dk1 +:+ "-" +:+ dn))
            (Z.of_nat (length srcDoc))
          = seqZ (1 + Z.of_nat k) (Z.of_nat (length srcDoc - k))) as H2.
  { rewrite !list_ascii_of_string_app.
    change (list_ascii_of_string "-" ++ list_ascii_of_string dn)
      with ("-"%char :: list_ascii_of_string dn).
    rewrite pair_chunk_pages by done. rewrite Hvk1, Hvn.
    rewrite bool_decide_eq_false_2 by lia. f_equal; lia. }
  assert (seqZ 1 (Z.of_nat k) ≠ []) as Hne1 by (rewrite seqZ_cons by lia; done).
  assert (seqZ (1 + Z.of_nat k) (Z.of_nat (length srcDoc - k)) ≠ []) as Hne2
    by (rewrite seqZ_cons by lia; done).
  remember ("1" +:+ "-" +:+ dk) as s1. remember (dk1 +:+ "-" +:+ dn) as s2.
  split.
  - unfold splitPdf, rangeList. simpl. rewrite H1.
    destruct (seqZ 1 (Z.of_nat k)) as [|p ps] eqn:E1; [done|].
    rewrite subsetPdf_omap by done. rewrite H2.
    destruct (seqZ (1 + Z.of_nat k) (Z.of_nat (length srcDoc - k))) as [|q qs] eqn:E2; [done|].
    rewrite subsetPdf_omap by done. done.
  - rewrite mergePdfs_concat. simpl. rewrite app_nil_r, <- omap_app, <- seqZ_app by lia.
    replace (Z.of_nat k + Z.of_nat (length srcDoc - k)) with (Z.of_nat (length srcDoc)) by lia.
    by rewrite omap_page_at_all.
Qed.

End SplitMerge.

Section SplitMergeExamples.
Import JsString DocumentConverter DocumentOps.

Lemma splitPdf_then_mergePdfs_witness :
  ∃ front back,
    splitPdf ["a"; "b"; "c"; "d"; "e"]%string (RangeArray ["1" +:+ "-" +:+ "2"; "3" +:+ "-" +:+ "5"])
    = Ok [(1, front); (2, back)]
    ∧ mergePdfs [front; back] = Ok ["a"; "b"; "c"; "d"; "e"]%string.
Proof.
  apply (splitPdf_then_mergePdfs ["a"; "b"; "c"; "d"; "e"]%string 2 "2" "3" "5");
    first [ simpl; lia | reflexivity | (split; [discriminate|repeat constructor]) ].
Defined.

End SplitMergeExamples.

(** ** The worker pool, continued *)
Section PoolMore.
Import Pool.
Context {Item R : Type}.
Variable items : list Item.
Variable limit : Z.
Variable mapper : Item → nat → Outcome R.

Lemma runLimited_idle :
  limit ≤ 0 →
  (runLimited items limit : State R)
  = mkState (replicate (length items) None) 0 0 [] None.
Proof.
  intros Hlimit. unfold runLimited.
  match goal with |- Pool.launch _ _ ?s0 = _ =>
    destruct (launch_spec items limit s0) as (j & -> & Hj & _) end.
  simpl in *. destruct Hj as [->|[_ Hj]]; [done|]. destruct j; [done|lia].
Qed.

Lemma complete_sticky idx (s s' : State R) v :
  complete items limit mapper idx s = Some s' → settled s = Some v → settled s' = Some v.
Proof.
  intros Hc Hs. destruct (complete_shape items limit mapper idx s s' Hc)
    as (item & _ & _ & Hshape).
  destruct (mapper item idx).
  - destruct Hshape as (j & -> & _). simpl. rewrite Hs. by case_match.
  - subst s'. simpl. by rewrite Hs.
Qed.

Lemma run_sticky order (s s' : State R) v :
  run items limit mapper order s = Some s' → settled s = Some v → settled s' = Some v.
Proof.
  revert s. induction order as [|idx order IH]; intros s; simpl.
  - by intros [= <-].
  - destruct (complete items limit mapper idx s) as [s1|] eqn:Hc; [|done].
    intros Hrun Hs. eapply IH; [done|]. by eapply complete_sticky.
Qed.

Lemma run_app order1 order2 (s : State R) :
  run items limit mapper (order1 ++ order2) s
  = run items limit mapper order1 s ≫= run items limit mapper order2.
Proof.
  revert s. induction order1 as [|idx order1 IH]; intros s; simpl; [done|].
  destruct (complete items limit mapper idx s); [apply IH|done].
Qed.

Lemma run_Invariant order (s s' : State R) :
  Invariant items limit mapper s → run items limit mapper order s = Some s' →
  Invariant items limit mapper s'.
Proof. intros Hinv Hrun. by destruct (run_reaches items limit mapper order s s'). Qed.

Lemma run_not_thrown order (s s' : State R) :
  run items limit mapper order s = Some s' →
  (∀ i, i ∈ order → ¬ rejected items mapper i) →
  (∀ e, settled s ≠ Some (Throw e)) → ∀ e, settled s' ≠ Some (Throw e).
Proof.
  revert s. induction order as [|idx order IH]; intros s; simpl.
  - by intros [= <-].
  - destruct (complete items limit mapper idx s) as [s1|] eqn:Hc; [|done].
    intros Hrun Hok Hs. eapply IH; [done| |].
    + intros i Hi. apply Hok. by right.
    + destruct (complete_shape items limit mapper idx s s1 Hc) as (item & _ & Hitem & Hshape).
      destruct (mapper item idx) as [r|err] eqn:Hm.
      * destruct Hshape as (j & -> & _). simpl. intros e.
        case_match; [|done]. destruct (settled s) as [[|]|] eqn:E; done.
      * exfalso. apply (Hok idx); [left|]. by exists item, err.
Qed.

End PoolMore.

Section PoolMoreClaims.
Import Pool.

(** X11: A limit of 0 or less starts nothing: whatever the items and the
    worker, the pool is created with no call in flight, no turn of the
    event loop can change it and its promise stays pending - so the
    rasterization of a document with [concurrency: 0] never returns, however
    many pages there are. *)
Theorem runLimited_nonpositive_limit {Item R : Type} (items : list Item) (limit : Z)
    (mapper : Item → nat → Outcome R) :
  limit ≤ 0 →
  in_flight (runLimited items limit : State R) = []
  ∧ settled (runLimited items limit : State R) = None
  ∧ (∀ s, rtc (step items limit mapper) (runLimited items limit) s →
          s = runLimited items limit)
  ∧ (∀ (Page : Type) (srcDoc : list Page),
       ∃ pool, DocumentConverter.pdfToImagesViaLibreOffice srcDoc limit = Ok pool
               ∧ in_flight pool = [] ∧ settled pool = None).
Proof.
  intros Hlimit. rewrite runLimited_idle by done. simpl. split_and!; [done..| |].
  - intros s Hs. apply rtc_inv in Hs as [<-|(s1 & [idx Hc] & _)]; [done|].
    unfold complete in Hc. simpl in Hc. done.
  - intros Page srcDoc. rewrite pdfToImages_pool. eexists. split; [done|].
    by rewrite runLimited_idle.
Qed.

Lemma runLimited_nonpositive_limit_witness :
  in_flight (runLimited ["a"; "b"]%string 0 : State string) = [].
Proof. apply (runLimited_nonpositive_limit ["a"; "b"]%string 0 suffix_worker). lia. Defined.

(** X12: The pool fails fast and for good: when, in some order of completion,
    the call for [idx] is the first to fail, the pool's promise is rejected
    with that call's error, and whatever settles afterwards it stays so -
    the pool never resolves.  The slot of the failed call is not given
    back: fewer than [limit] calls are in flight from then on. *)
Theorem runLimited_fails_fast {Item R : Type} (items : list Item) (limit : Z)
    (mapper : Item → nat → Outcome R) (before after : list nat) (idx : nat)
    (item : Item) (err : string) (s : State R) :
  1 ≤ limit →
  (∀ i, i ∈ before → ¬ rejected items mapper i) →
  items !! idx = Some item → mapper item idx = Rejected err →
  run items limit mapper (before ++ idx :: after) (runLimited items limit) = Some s →
  settled s = Some (Throw err)
  ∧ Z.of_nat (length (in_flight s)) < limit.
Proof.
  intros Hlimit Hbefore Hitem Hm Hrun.
  rewrite run_app in Hrun.
  destruct (run items limit mapper before (runLimited items limit)) as [s1|] eqn:H1;
    [|done].
  simpl in Hrun.
  destruct (complete items limit mapper idx s1) as [s2|] eqn:H2; [|done].
  pose proof (runLimited_Invariant items limit mapper Hlimit) as Hinv0.
  pose proof (run_Invariant _ _ _ _ _ _ Hinv0 H1) as Hinv1.
  pose proof (complete_Invariant _ _ _ _ _ _ Hinv1 H2) as Hinv2.
  pose proof (run_Invariant _ _ _ _ _ _ Hinv2 Hrun) as Hinv.
  assert (settled s1 = None) as Hs1.
  { destruct (settled s1) as [[rs|e]|] eqn:E; [| |done].
    - apply Hinv1 in E as (_ & Hnil & _).
      unfold complete in H2. rewrite Hnil in H2. done.
    - exfalso. eapply (run_not_thrown items limit mapper before _ s1 H1); [done| |exact E].
      intros e'. unfold runLimited.
      match goal with |- context [Pool.launch _ _ ?s0] =>
        destruct (launch_spec items limit s0) as (j & -> & _) end. done. }
  assert (settled s2 = Some (Throw err)) as Hs2.
  { destruct (complete_shape items limit mapper idx s1 s2 H2) as (item' & _ & Hitem' & Hshape).
    simplify_eq. rewrite Hm in Hshape. subst s2. simpl. by rewrite Hs1. }
  pose proof (run_sticky items limit mapper after s2 s _ Hrun Hs2) as Hs.
  split; [done|].
  pose proof (inv_thrown _ _ _ _ Hinv _ Hs) as Hrej.
  pose proof (inv_failed _ _ _ _ Hinv Hrej). pose proof (inv_active_hi _ _ _ _ Hinv). lia.
Qed.

Lemma runLimited_fails_fast_witness :
  settled <$> run ["a"; "bad"; "c"; "d"]%string 2 picky_worker [0; 1; 2; 3]%nat
                  (runLimited ["a"; "bad"; "c"; "d"]%string 2)
  = Some (Some (Throw "no"%string)).
Proof.
  destruct (run ["a"; "bad"; "c"; "d"]%string 2 picky_worker [0; 1; 2; 3]%nat
              (runLimited ["a"; "bad"; "c"; "d"]%string 2)) as [s|] eqn:E;
    [|by vm_compute in E].
  simpl. do 2 f_equal.
  apply (runLimited_fails_fast ["a"; "bad"; "c"; "d"]%string 2 picky_worker
           [0%nat] [2; 3]%nat 1 "bad"%string "no"%string s);
    [lia| |reflexivity|reflexivity|exact E].
  intros i ->%list_elem_of_singleton (item & e & [= <-] & Hm). by vm_compute in Hm.
Defined.

(** X13: The pool does resolve: when no call fails, there is at least one
    item and the limit is at least 1, letting the calls settle one after
    the other - as many turns as there are items - ends with the pool's
    promise resolved; no order of completion that the pool allows can
    resolve it earlier or go on longer. *)
Theorem runLimited_resolves {Item R : Type} (items : list Item) (limit : Z)
    (mapper : Item → nat → Outcome R) :
  1 ≤ limit → items ≠ [] → (∀ k, ¬ rejected items mapper k) →
  ∃ order s rs,
    length order = length items
    ∧ run items limit mapper order (runLimited items limit) = Some s
    ∧ settled s = Some (Ok rs).
Proof.
  intros Hlimit Hne Hall.
  assert (∀ n, (n ≤ length items)%nat →
            ∃ order s, length order = n
                       ∧ run items limit mapper order (runLimited items limit) = Some s)
    as Hrun.
  { induction n as [|n IH]; intros Hn.
    - by exists [], (runLimited items limit).
    - destruct IH as (order & s & Hlen & Hrun); [lia|].
      destruct (run_progress items limit mapper order s Hlimit Hne Hall Hrun)
        as (_ & _ & Hmore).
      destruct Hmore as (idx & s' & Hc); [lia|].
      exists (order ++ [idx])%list, s'. split.
      + rewrite length_app. simpl. lia.
      + rewrite run_app, Hrun. simpl. by rewrite Hc. }
  destruct (Hrun (length items)) as (order & s & Hlen & Hs); [done|].
  destruct (run_progress items limit mapper order s Hlimit Hne Hall Hs)
    as (_ & Hdone & _).
  destruct (proj1 Hdone Hlen) as [rs Hrs].
  by exists order, s, rs.
Qed.

Lemma runLimited_resolves_witness :
  ∃ order s rs,
    length order = length ["a"; "b"; "c"]%string
    ∧ run ["a"; "b"; "c"]%string 2 suffix_worker order (runLimited ["a"; "b"; "c"]%string 2)
      = Some s
    ∧ settled s = Some (Ok rs).
Proof.
  apply (runLimited_resolves ["a"; "b"; "c"]%string 2 suffix_worker).
  - lia.
  - done.
  - intros k (item & err & _ & Hrej). discriminate Hrej.
Defined.

End PoolMoreClaims.

(** ** Jobs, continued *)
Section JobsMore.
Import Router Jobs.

Lemma update_job_get_other jobId other f st :
  other ≠ jobId → jobs_get other (update_job jobId f st) = jobs_get other st.
Proof.
  intros Hne. unfold jobs_get, jobs_has, update_job. simpl.
  by rewrite lookup_alter_ne.
Qed.

Lemma progress_cb_other jobId other started now p st :
  other ≠ jobId → jobs_get other (progress_cb jobId started now p st) = jobs_get other st.
Proof.
  intros Hne. unfold progress_cb. case_match; [done|]. by apply update_job_get_other.
Qed.

Lemma cancel_other jobId other st :
  other ≠ jobId → jobs_get other (cancel jobId st).1 = jobs_get other st.
Proof.
  intros Hne. unfold cancel. repeat case_match; simpl; try done.
  by apply update_job_get_other.
Qed.

Lemma run_catch_other jobId other msg st :
  other ≠ jobId → jobs_get other (run_catch jobId msg st) = jobs_get other st.
Proof.
  intros Hne. unfold run_catch. case_match; [done|]. by apply update_job_get_other.
Qed.

Lemma run_settle_other jobId other c started now outcome st :
  other ≠ jobId →
  jobs_get other (run_settle jobId c started now outcome st) = jobs_get other st.
Proof.
  intros Hne. unfold run_settle.
  repeat case_match; simplify_eq;
    rewrite ?update_job_get_other, ?run_catch_other, ?progress_cb_other by done; done.
Qed.

Lemma download_other jobId other st :
  other ≠ jobId → jobs_get other (download jobId st) = jobs_get other st.
Proof.
  intros Hne. unfold download. repeat case_match; try done.
  unfold jobs_get, jobs_has. simpl.
  destruct (decide (other ∈ registered st)) as [Hin|Hin].
  - rewrite !bool_decide_eq_true_2; [done..|]. set_solver.
  - rewrite !bool_decide_eq_false_2; [done..|]. set_solver.
Qed.

Lemma apply_event_other jobId other c started st ev :
  other ≠ jobId → jobs_get other (apply_event jobId c started st ev) = jobs_get other st.
Proof.
  intros Hne. destruct ev; simpl;
    auto using progress_cb_other, cancel_other, run_settle_other, download_other.
Qed.

Lemma events_other jobId other c started evs st :
  other ≠ jobId →
  jobs_get other (fold_left (apply_event jobId c started) evs st) = jobs_get other st.
Proof.
  intros Hne. revert st. induction evs as [|ev evs IH]; intros st; simpl; [done|].
  by rewrite IH, apply_event_other.
Qed.

Lemma runConversionJob_other jobId other c started now0 evs st :
  other ≠ jobId →
  jobs_get other (runConversionJob jobId c started now0 evs st) = jobs_get other st.
Proof.
  intros Hne. unfold runConversionJob, run_start, run_before_await.
  repeat case_match; simplify_eq; try done;
    rewrite events_other, ?progress_cb_other, ?update_job_get_other by done; done.
Qed.

Lemma newJob_other uuid other now m st :
  other ≠ uuid → jobs_get other (newJob uuid now m st) = jobs_get other st.
Proof.
  intros Hne. unfold jobs_get, jobs_has, newJob. simpl.
  rewrite lookup_insert_ne by done.
  destruct (decide (other ∈ registered st)) as [Hin|Hin].
  - rewrite !bool_decide_eq_true_2; [done..|]. set_solver.
  - rewrite !bool_decide_eq_false_2; [done..|]. set_solver.
Qed.

Lemma submit_other uuid other now filePath fmt st :
  other ≠ uuid → jobs_get other (submit uuid now filePath fmt st) = jobs_get other st.
Proof.
  intros Hne. unfold submit. by rewrite update_job_get_other, newJob_other.
Qed.

Lemma submit_get uuid now filePath fmt st :
  jobs_get uuid (submit uuid now filePath fmt st)
  = Some (mkJob uuid queued 0 None (Some filePath) None None
                (mkMeta (detectCategory filePath) fmt None) now).
Proof.
  unfold submit.
  rewrite (jobs_get_update _ _ _
             (mkJob uuid queued 0 None None None None
                    (mkMeta (detectCategory filePath) fmt None) now)); [done|].
  unfold jobs_get, jobs_has, newJob. simpl.
  rewrite bool_decide_eq_true_2 by set_solver. by rewrite lookup_insert_eq.
Qed.

(** X14: Jobs do not interfere: whatever happens to one job - its run, the
    progress it reports, its cancellation, its settling, its download -
    and whatever is submitted under another id, every other job is read
    back unchanged. *)
Theorem jobs_are_isolated (jobId other : string) (c : Category) (started now0 : Z)
    (evs : list Event) (now : Z) (filePath fmt : string) (st : Store) :
  other ≠ jobId →
  jobs_get other (runConversionJob jobId c started now0 evs st) = jobs_get other st
  ∧ jobs_get other (cancel jobId st).1 = jobs_get other st
  ∧ jobs_get other (download jobId st) = jobs_get other st
  ∧ jobs_get other (submit jobId now filePath fmt st) = jobs_get other st.
Proof.
  intros Hne. split_and!.
  - by apply runConversionJob_other.
  - by apply cancel_other.
  - by apply download_other.
  - by apply submit_other.
Qed.

Lemma jobs_are_isolated_witness :
  jobs_get "j1"
    (runConversionJob "j2" audio 2000 2000 [EvProgress 2500 40; EvCancel]
       (submit "j2" 1500 "/up/2-b.mp3" "wav" (one_job "/up/1-a.pdf" "docx")))
  = jobs_get "j1" (submit "j2" 1500 "/up/2-b.mp3" "wav" (one_job "/up/1-a.pdf" "docx")).
Proof.
  apply (jobs_are_isolated "j2" "j1" audio 2000 2000 [EvProgress 2500 40; EvCancel]
           0 "" ""). discriminate.
Defined.

End JobsMore.

(** ** What the status endpoint can report *)
Section JobInvariant.
Import Router Jobs.

Lemma update_job_wf jobId f st :
  (∀ j, job_wf (f j)) ∨ (∀ j, job_wf j → job_wf (f j)) →
  store_wf st → store_wf (update_job jobId f st).
Proof.
  intros Hf Hst k j. unfold update_job. simpl.
  destruct (decide (k = jobId)) as [->|Hne].
  - rewrite lookup_alter_eq. destruct (heap st !! jobId) as [j0|] eqn:E; simpl; [|done].
    intros [= <-]. destruct Hf as [Hf|Hf]; [done|]. apply Hf. by eapply Hst.
  - rewrite lookup_alter_ne by done. apply Hst.
Qed.

Lemma progress_cb_wf jobId started now p st :
  store_wf st → store_wf (progress_cb jobId started now p st).
Proof.
  intros Hst. unfold progress_cb. case_match; [done|].
  apply update_job_wf; [|done]. left. intros j0. split; simpl.
  - apply clamp_percent_range.
  - intros eta. repeat case_match; intros [= <-]; lia.
Qed.

Lemma cancel_wf jobId st : store_wf st → store_wf (cancel jobId st).1.
Proof.
  intros Hst. unfold cancel. repeat case_match; simpl; try done.
  apply update_job_wf; [|done]. right. by intros j0 Hj.
Qed.

Lemma run_catch_wf jobId msg st : store_wf st → store_wf (run_catch jobId msg st).
Proof.
  intros Hst. unfold run_catch. case_match; [done|].
  apply update_job_wf; [|done]. right. intros j0 [Hp _]. split; simpl; done.
Qed.

Lemma run_settle_wf jobId c started now outcome st :
  store_wf st → store_wf (run_settle jobId c started now outcome st).
Proof.
  intros Hst. unfold run_settle.
  assert (∀ st1, store_wf st1 →
            store_wf (update_job jobId
              (λ j, set_etaSeconds (Some 0)
                      (set_progress 100
                         (set_status completed
                            (set_outputPath
                               (result_path (match outcome with Ok r => r | _ => ResArray [] end))
                               j)))) st1)) as Hdone.
  { intros st1 Hst1. apply update_job_wf; [|done]. left. intros j0. split; simpl; [lia|].
    intros eta [= <-]. lia. }
  repeat case_match; simplify_eq;
    auto using run_catch_wf, progress_cb_wf;
    try (by apply (Hdone _ (progress_cb_wf _ _ _ _ _ Hst)));
    try (by apply (Hdone _ Hst)).
Qed.

Lemma download_wf jobId st : store_wf st → store_wf (download jobId st).
Proof. intros Hst. unfold download. by repeat case_match. Qed.

Lemma apply_event_wf jobId c started st ev :
  store_wf st → store_wf (apply_event jobId c started st ev).
Proof.
  destruct ev; simpl; auto using progress_cb_wf, cancel_wf, run_settle_wf, download_wf.
Qed.

Lemma runConversionJob_wf jobId c started now0 evs st :
  store_wf st → store_wf (runConversionJob jobId c started now0 evs st).
Proof.
  intros Hst. unfold runConversionJob, run_start.
  assert (∀ st1, store_wf st1 →
            store_wf (fold_left (apply_event jobId c started) evs st1)) as Hevs.
  { induction evs as [|ev evs IH]; intros st1 Hst1; simpl; [done|].
    by apply IH, apply_event_wf. }
  repeat case_match; simplify_eq; try done.
  apply Hevs. unfold run_before_await.
  assert (store_wf (update_job jobId (λ j, set_progress 0 (set_status running j)) st)).
  { apply update_job_wf; [|done]. right. intros j0 [_ He]. split; simpl; [lia|done]. }
  case_match; [by apply progress_cb_wf|done].
Qed.

Lemma newJob_wf uuid now m st : store_wf st → store_wf (newJob uuid now m st).
Proof.
  intros Hst k j. unfold newJob. simpl.
  destruct (decide (k = uuid)) as [->|Hne].
  - rewrite lookup_insert_eq. intros [= <-]. split; simpl; [lia|done].
  - rewrite lookup_insert_ne by done. apply Hst.
Qed.

Lemma set_inputPath_wf uuid v st :
  store_wf st → store_wf (update_job uuid (set_inputPath v) st).
Proof. intros Hst. apply update_job_wf; [|done]. right. by intros j0 Hj. Qed.

Lemma submit_batch_wf batch fmt files st :
  store_wf st → store_wf (submit_batch batch fmt files st).
Proof.
  unfold submit_batch. revert st.
  induction files as [|[[uuid now] filePath] files IH]; intros st Hst; simpl; [done|].
  by apply IH, set_inputPath_wf, newJob_wf.
Qed.

Lemma reachable_wf st : reachable st → store_wf st.
Proof.
  induction 1.
  - by intros k j; unfold empty_store; simpl; rewrite lookup_empty.
  - by apply set_inputPath_wf, newJob_wf.
  - by apply submit_batch_wf.
  - by apply runConversionJob_wf.
  - by apply cancel_wf.
  - by apply download_wf.
Qed.

(** X15: Whatever requests were served and whatever the converters reported
    - percentages below 0 or above 100, clock readings that go backwards
    -, a job that the status endpoint finds has a progress between 0 and
    100 and an ETA that is either null or not negative. *)
Theorem status_is_in_range (st : Store) (jobId : string) (j : Job) :
  reachable st →
  jobs_get jobId st = Some j →
  0 ≤ progress j ≤ 100 ∧ ∀ eta, etaSeconds j = Some eta → 0 ≤ eta.
Proof.
  intros Hreach [_ Hheap]%jobs_get_Some. by apply (reachable_wf _ Hreach jobId).
Qed.

Lemma status_is_in_range_witness :
  ∃ j, jobs_get "j1"
         (runConversionJob "j1" audio 2000 2000 [EvProgress 1500 250; EvProgress 2600 (-7)]
            (one_job "/up/1-a.mp3" "wav")) = Some j
       ∧ 0 ≤ progress j ≤ 100 ∧ ∀ eta, etaSeconds j = Some eta → 0 ≤ eta.
Proof.
  eexists. split; [by vm_compute|].
  eapply (status_is_in_range
            (runConversionJob "j1" audio 2000 2000 [EvProgress 1500 250; EvProgress 2600 (-7)]
               (one_job "/up/1-a.mp3" "wav")) "j1").
  - apply reach_run. apply reach_submit. apply reach_empty.
  - by vm_compute.
Defined.

End JobInvariant.

(** ** The life of a job *)
Section JobLifecycle.
Import Router Jobs.

Lemma progress_events_job jobId c started evs st job :
  jobs_get jobId st = Some job →
  Forall is_progress evs →
  ∃ job', jobs_get jobId (fold_left (apply_event jobId c started) evs st) = Some job'
          ∧ status job' = status job ∧ outputPath job' = outputPath job
          ∧ error job' = error job
          ∧ (evs = [] → job' = job).
Proof.
  intros Hget Hevs. revert st job Hget.
  induction Hevs as [|ev evs Hev _ IH]; intros st job Hget; simpl.
  - by exists job.
  - destruct ev as [now p| | |]; try done. simpl.
    destruct (IH _ _ (progress_cb_job jobId started now p st job Hget))
      as (job' & Hget' & Hs & Ho & He & _).
    exists job'. split_and!; done.
Qed.

Lemma run_before_await_job jobId c started now st job :
  jobs_get jobId st = Some job →
  ∃ job', jobs_get jobId (run_before_await jobId c started now st) = Some job'
          ∧ status job' = status job ∧ outputPath job' = outputPath job
          ∧ error job' = error job
          ∧ (milestone_before c = None → job' = job).
Proof.
  intros Hget. unfold run_before_await. destruct (milestone_before c) as [p|].
  - eexists. split; [by apply progress_cb_job|]. done.
  - by exists job.
Qed.

Lemma run_settle_ok jobId c started now result st job :
  c ≠ unknown →
  jobs_get jobId st = Some job →
  status job ≠ cancelled →
  report <$> jobs_get jobId (run_settle jobId c started now (Ok result) st)
  = Some (completed, 100, Some 0, result_path result, error job).
Proof.
  intros Hc Hget Hs. unfold run_settle.
  assert (∀ st1 job1,
            jobs_get jobId st1 = Some job1 → status job1 = status job →
            error job1 = error job →
            report <$> jobs_get jobId
              (match heap st1 !! jobId with
               | Some job0 =>
                   if bool_decide (status job0 = cancelled) then st1
                   else update_job jobId
                          (λ j, set_etaSeconds (Some 0)
                                  (set_progress 100
                                     (set_status completed
                                        (set_outputPath (result_path result) j)))) st1
               | None => st1
               end)
            = Some (completed, 100, Some 0, result_path result, error job)) as Hfin.
  { intros st1 job1 Hget1 Hs1 He1. pose proof Hget1 as [_ Hheap]%jobs_get_Some.
    rewrite Hheap. rewrite bool_decide_eq_false_2 by congruence.
    erewrite jobs_get_update by done. simpl. unfold report. simpl. by rewrite He1. }
  destruct c; try done; simpl;
    first [ by apply (Hfin st job)
          | eapply Hfin; [by apply progress_cb_job|done..] ].
Qed.

Lemma run_catch_job jobId msg st job :
  jobs_get jobId st = Some job →
  report <$> jobs_get jobId (run_catch jobId msg st)
  = Some (failed, progress job, None, outputPath job,
          Some (if bool_decide (msg = ""%string) then "Conversion failed"%string else msg)).
Proof.
  intros Hget. pose proof Hget as [Hhas _]%jobs_get_Some.
  unfold run_catch. rewrite Hhas. simpl. by erewrite jobs_get_update by done.
Qed.

Lemma fold_left_snoc {A B} (f : A → B → A) l x a :
  fold_left f (l ++ [x]) a = f (fold_left f l a) x.
Proof. by rewrite fold_left_app. Qed.

Lemma run_started jobId c started now0 evs st job :
  jobs_get jobId st = Some job → status job ≠ cancelled →
  runConversionJob jobId c started now0 evs st
  = fold_left (apply_event jobId c started) evs
      (run_before_await jobId c started now0
         (update_job jobId (λ j, set_progress 0 (set_status running j)) st)).
Proof.
  intros Hget Hs. unfold runConversionJob, run_start. rewrite Hget.
  by rewrite bool_decide_eq_false_2.
Qed.

(** X16: A job that runs to the end: submitted, started, the converter reports
    progress any number of times and resolves.  The job is then completed
    at 100 % with an ETA of 0 and the path taken from the result.  When
    that path is a non-empty string, the download removes the job from the
    map, so that a later cancel request answers 404.  When the result
    carries no path - the array that the document converter resolves with
    for a split or for page images - or an empty one, the download is
    refused and changes nothing, and a cancel request is refused as well:
    the job stays in the map as it is. *)
Theorem completed_job_lifecycle (uuid filePath fmt : string) (now started now0 tsettle : Z)
    (evs : list Event) (result : ConvResult) (st : Store) :
  detectCategory filePath ≠ unknown →
  Forall is_progress evs →
  let st1 := runConversionJob uuid (detectCategory filePath) started now0
               (evs ++ [EvSettle tsettle (Ok result)])
               (submit uuid now filePath fmt st) in
  report <$> jobs_get uuid st1 = Some (completed, 100, Some 0, result_path result, None)
  ∧ (∀ out, result_path result = Some out → out ≠ ""%string →
       jobs_get uuid (download uuid st1) = None
       ∧ cancel uuid (download uuid st1) = (download uuid st1, Cancel404))
  ∧ (result_path result = None ∨ result_path result = Some ""%string →
       download uuid st1 = st1 ∧ cancel uuid st1 = (st1, Cancel400)).
Proof.
  intros Hc Hevs st1.
  assert (report <$> jobs_get uuid st1
          = Some (completed, 100, Some 0, result_path result, None)) as Hrep.
  { subst st1. erewrite run_started; [|apply submit_get|done].
    rewrite fold_left_snoc. simpl.
    edestruct run_before_await_job as (job1 & Hget1 & Hs1 & _ & He1 & _);
      [by eapply jobs_get_update, submit_get|].
    edestruct (progress_events_job uuid (detectCategory filePath) started evs)
      as (job2 & Hget2 & Hs2 & _ & He2 & _); [exact Hget1|done|].
    erewrite run_settle_ok; [|done|exact Hget2|].
    - by rewrite He2, He1.
    - by rewrite Hs2, Hs1. }
  split; [exact Hrep|].
  destruct (jobs_get uuid st1) as [job|] eqn:Hget; [|done].
  simpl in Hrep. injection Hrep as Hs Hp He Ho Herr.
  split.
  - intros out Hout Hne.
    assert (jobs_get uuid (download uuid st1) = None) as Hgone.
    { unfold download. rewrite Hget, Hs, Ho, Hout.
      rewrite bool_decide_eq_true_2 by done.
      rewrite bool_decide_eq_true_2 by (split; congruence). simpl.
      unfold jobs_get, jobs_has. simpl. rewrite bool_decide_eq_false_2; [done|]. set_solver. }
    split; [done|]. unfold cancel. by rewrite Hgone.
  - intros Hnone. split.
    + unfold download. rewrite Hget, Hs, Ho.
      rewrite (bool_decide_eq_false_2 (_ ∧ _)); [by rewrite andb_false_r|].
      intros [? ?]. destruct Hnone; congruence.
    + unfold cancel. rewrite Hget, Hs. by rewrite bool_decide_eq_true_2.
Qed.

Lemma completed_job_lifecycle_witness :
  report <$> jobs_get "j1"
    (runConversionJob "j1" (detectCategory "/up/1-a.pdf") 2000 2100
       ([EvProgress 2500 40] ++ [EvSettle 3000 (Ok (ResArray ["/up/p1.pdf"; "/up/p2.pdf"]))])
       (submit "j1" 1000 "/up/1-a.pdf" "pdf" empty_store))
  = Some (completed, 100, Some 0, None, None).
Proof.
  apply (completed_job_lifecycle "j1" "/up/1-a.pdf" "pdf" 1000 2000 2100 3000
           [EvProgress 2500 40] (ResArray ["/up/p1.pdf"; "/up/p2.pdf"]) empty_store).
  - by vm_compute.
  - by repeat constructor.
Defined.

(** X17: A job whose converter rejects: whatever progress was reported before,
    the job ends as failed with the message of the error - or "Conversion
    failed" when the message is empty -, a null ETA and no output path;
    its progress stays where the last report left it.  Afterwards a cancel
    request is refused and a download changes nothing. *)
Theorem failed_job_lifecycle (uuid filePath fmt msg : string) (c : Category)
    (now started now0 tsettle : Z) (evs : list Event) (st : Store) :
  c ≠ unknown →
  Forall is_progress evs →
  let before := runConversionJob uuid c started now0 evs (submit uuid now filePath fmt st) in
  let st1 := runConversionJob uuid c started now0 (evs ++ [EvSettle tsettle (Throw msg)])
               (submit uuid now filePath fmt st) in
  ∃ job, jobs_get uuid before = Some job
    ∧ report <$> jobs_get uuid st1
      = Some (failed, progress job, None, None,
              Some (if bool_decide (msg = ""%string) then "Conversion failed"%string else msg))
    ∧ cancel uuid st1 = (st1, Cancel400)
    ∧ download uuid st1 = st1.
Proof.
  intros Hc Hevs before st1. subst before st1.
  erewrite !run_started; [|apply submit_get|done|apply submit_get|done].
  rewrite fold_left_snoc. simpl.
  edestruct run_before_await_job as (job1 & Hget1 & Hs1 & Ho1 & He1 & _);
    [by eapply jobs_get_update, submit_get|].
  edestruct (progress_events_job uuid c started evs)
    as (job2 & Hget2 & Hs2 & Ho2 & He2 & _); [exact Hget1|done|].
  exists job2. split; [exact Hget2|].
  match goal with |- context [run_settle ?a ?b ?c ?d ?e ?f] => set (st1 := run_settle a b c d e f) end.
  assert (report <$> jobs_get uuid st1
          = Some (failed, progress job2, None, None,
              Some (if bool_decide (msg = ""%string) then "Conversion failed"%string else msg)))
    as Hrep.
  { subst st1. unfold run_settle. destruct c; try done;
      (erewrite run_catch_job by exact Hget2); by rewrite Ho2, Ho1. }
  split; [done|].
  destruct (jobs_get uuid st1) as [job|] eqn:Hget; [|done].
  simpl in Hrep. injection Hrep as Hs Hp He Ho Herr.
  split.
  - unfold cancel. rewrite Hget, Hs.
    rewrite (bool_decide_eq_true_2 (failed = failed)) by done. by rewrite orb_true_r.
  - unfold download. rewrite Hget, Hs. by rewrite bool_decide_eq_false_2.
Qed.

Lemma failed_job_lifecycle_witness :
  ∃ job,
    jobs_get "j1" (runConversionJob "j1" audio 2000 2000 [EvProgress 2500 40]
                     (submit "j1" 1000 "/up/1-a.mp3" "wav" empty_store)) = Some job
    ∧ report <$> jobs_get "j1"
        (runConversionJob "j1" audio 2000 2000
           ([EvProgress 2500 40] ++ [EvSettle 3000 (Throw "")])
           (submit "j1" 1000 "/up/1-a.mp3" "wav" empty_store))
      = Some (failed, progress job, None, None, Some "Conversion failed"%string).
Proof.
  destruct (failed_job_lifecycle "j1" "/up/1-a.mp3" "wav" "" audio 1000 2000 2000 3000
              [EvProgress 2500 40] empty_store) as (job & Hget & Hrep & _).
  - discriminate.
  - by repeat constructor.
  - exists job. split; [exact Hget|exact Hrep].
Defined.

(** X18: A file whose extension is in no converter's table is filed as
    unknown, and its job fails with "Unsupported file type" at 0 %,
    whatever a converter would have answered. *)
Theorem unsupported_file_type (uuid filePath fmt : string) (now started now0 tsettle : Z)
    (outcome : Result ConvResult) (st : Store) :
  (∀ c, ext filePath ∉ SUPPORTED_INPUTS c) →
  detectCategory filePath = unknown
  ∧ report <$> jobs_get uuid
      (runConversionJob uuid (detectCategory filePath) started now0
         [EvSettle tsettle outcome] (submit uuid now filePath fmt st))
    = Some (failed, 0, None, None, Some "Unsupported file type"%string).
Proof.
  intros Hno.
  assert (detectCategory filePath = unknown) as Hc.
  { unfold detectCategory, has.
    pose proof (Hno audio). pose proof (Hno image). pose proof (Hno document).
    pose proof (Hno archive). pose proof (Hno presentation). pose proof (Hno font).
    pose proof (Hno ebook). simpl in *.
    by rewrite !bool_decide_eq_false_2 by done. }
  split; [done|]. rewrite Hc.
  erewrite run_started; [|apply submit_get|done]. simpl.
  unfold run_before_await, run_settle. simpl.
  by rewrite (run_catch_job _ _ _ _
                (jobs_get_update _ _ _ _ (submit_get uuid now filePath fmt st))).
Qed.

Lemma unsupported_file_type_witness :
  detectCategory "/up/1-a.exe" = unknown
  ∧ report <$> jobs_get "j1"
      (runConversionJob "j1" (detectCategory "/up/1-a.exe") 2000 2000
         [EvSettle 3000 (Ok (ResString "/up/out.pdf"))]
         (submit "j1" 1000 "/up/1-a.exe" "pdf" empty_store))
    = Some (failed, 0, None, None, Some "Unsupported file type"%string).
Proof.
  apply (unsupported_file_type "j1" "/up/1-a.exe" "pdf" 1000 2000 2000 3000
           (Ok (ResString "/up/out.pdf")) empty_store).
  intros c. destruct c; by vm_compute.
Defined.

End JobLifecycle.

(** ** Cancellation, routing and the ETA in closed form *)
Section RouterMore.
Import Router Jobs.




(** X20: A job that is cancelled before its run starts is never run: the
    cancel request is answered with "cancelled", only the status of the
    job changes, the run returns at its guard and leaves the map as it
    is, whatever would have happened during it, and a second cancel
    request is answered like the first. *)
Theorem cancelled_before_run (jobId : string) (c : Category) (started now0 : Z)
    (evs : list Event) (st : Store) (job : Job) :
  jobs_get jobId st = Some job →
  status job ≠ completed → status job ≠ failed →
  let st1 := (cancel jobId st).1 in
  (cancel jobId st).2 = Cancel200 cancelled
  ∧ jobs_get jobId st1 = Some (set_status cancelled job)
  ∧ runConversionJob jobId c started now0 evs st1 = st1
  ∧ (cancel jobId st1).2 = Cancel200 cancelled
  ∧ jobs_get jobId (cancel jobId st1).1 = Some (set_status cancelled job).
Proof.
  intros Hget Hc Hf st1.
  assert (cancel jobId st = (update_job jobId (set_status cancelled) st, Cancel200 cancelled))
    as Hcancel.
  { unfold cancel. rewrite Hget. by rewrite !bool_decide_eq_false_2 by done. }
  assert (jobs_get jobId st1 = Some (set_status cancelled job)) as Hget1.
  { subst st1. rewrite Hcancel. simpl. by apply jobs_get_update. }
  assert (cancel jobId st1
          = (update_job jobId (set_status cancelled) st1, Cancel200 cancelled)) as Hcancel1.
  { unfold cancel. by rewrite Hget1. }
  split_and!.
  - by rewrite Hcancel.
  - done.
  - unfold runConversionJob, run_start. by rewrite Hget1.
  - by rewrite Hcancel1.
  - rewrite Hcancel1. simpl. by rewrite (jobs_get_update _ _ _ _ Hget1).
Qed.

Lemma cancelled_before_run_witness :
  runConversionJob "j1" audio 2000 2000 [EvProgress 2500 40; EvSettle 3000 (Ok (ResString "/o.wav"))]
    (cancel "j1" (one_job "/up/1-a.mp3" "wav")).1
  = (cancel "j1" (one_job "/up/1-a.mp3" "wav")).1.
Proof.
  eapply (cancelled_before_run "j1" audio 2000 2000
            [EvProgress 2500 40; EvSettle 3000 (Ok (ResString "/o.wav"))]
            (one_job "/up/1-a.mp3" "wav")).
  - by vm_compute.
  - by vm_compute.
  - by vm_compute.
Defined.

(** X21: Which files reach the converters that are tested last.  The ebook
    converter lists six input extensions, but four of them are claimed by
    the document converter before: a file is routed to the ebook
    converter exactly when its extension is mobi or azw3.  The
    presentation converter lists pdf, which the document converter claims
    as well: it is reached exactly by pptx, ppt, odp and key.  Every
    extension of the font table reaches the font converter. *)
Theorem detectCategory_late_categories (filePath : string) :
  (detectCategory filePath = ebook ↔ ext filePath ∈ ["mobi"; "azw3"]%string)
  ∧ (detectCategory filePath = presentation
     ↔ ext filePath ∈ ["pptx"; "ppt"; "odp"; "key"]%string)
  ∧ (detectCategory filePath = font ↔ ext filePath ∈ Formats.font_SUPPORTED_INPUTS).
Proof.
  unfold detectCategory, has.
  unfold Formats.audio_SUPPORTED_INPUTS, Formats.image_SUPPORTED_INPUTS,
    Formats.document_SUPPORTED_INPUTS, Formats.archive_SUPPORTED_INPUTS,
    Formats.presentation_SUPPORTED_INPUTS, Formats.font_SUPPORTED_INPUTS,
    Formats.ebook_SUPPORTED_INPUTS.
  generalize (ext filePath). intros e.
  split_and!; (split; [repeat case_bool_decide; try done; intros _|intros He]).
  - rewrite !elem_of_list_to_set in *. rewrite !elem_of_cons, ?elem_of_nil in *.
    naive_solver.
  - rewrite !elem_of_cons, elem_of_nil in He.
    repeat (destruct He as [->|He]; [by vm_compute|]). done.
  - rewrite !elem_of_list_to_set in *. rewrite !elem_of_cons, ?elem_of_nil in *.
    naive_solver.
  - rewrite !elem_of_cons, elem_of_nil in He.
    repeat (destruct He as [->|He]; [by vm_compute|]). done.
  - rewrite elem_of_list_to_set in He. rewrite !elem_of_cons, elem_of_nil in He.
    repeat (destruct He as [->|He]; [by vm_compute|]). done.
Qed.

End RouterMore.

(** ** The batch route *)
Section BatchFacts.
Import Router Jobs.

Lemma submit_batch_cons batch fmt uuid now filePath files st :
  submit_batch batch fmt ((uuid, now, filePath) :: files) st
  = submit_batch batch fmt files
      (update_job uuid (set_inputPath (Some filePath))
         (newJob uuid now (mkMeta (detectCategory filePath) fmt (Some batch)) st)).
Proof. done. Qed.

Lemma submit_batch_other batch fmt files other st :
  other ∉ files.*1.*1 →
  jobs_get other (submit_batch batch fmt files st) = jobs_get other st.
Proof.
  revert st. induction files as [|[[uuid now] filePath] files IH]; intros st Hnot; [done|].
  rewrite submit_batch_cons. simpl in Hnot. rewrite not_elem_of_cons in Hnot.
  destruct Hnot as [Hne Hnot].
  by rewrite IH, update_job_get_other, newJob_other.
Qed.

(** X22: The batch route files one job per uploaded file: when the UUIDs drawn
    are all different, each file's job is afterwards found under its id,
    queued at 0 %, with the file's path, the category detected from it,
    the requested format and the id of the batch; the jobs that were in
    the map before under other ids are read back unchanged. *)
Theorem submit_batch_jobs (batch fmt : string) (files : list (string * Z * string))
    (st : Store) :
  NoDup (files.*1.*1) →
  (∀ uuid now filePath, (uuid, now, filePath) ∈ files →
     jobs_get uuid (submit_batch batch fmt files st)
     = Some (mkJob uuid queued 0 None (Some filePath) None None
                   (mkMeta (detectCategory filePath) fmt (Some batch)) now))
  ∧ (∀ other, other ∉ files.*1.*1 →
       jobs_get other (submit_batch batch fmt files st) = jobs_get other st).
Proof.
  intros Hnodup. split; [|intros other; apply submit_batch_other].
  revert st. induction files as [|[[u t] f] files IH]; intros st uuid now filePath Hin.
  - by apply elem_of_nil in Hin.
  - simpl in Hnodup. apply NoDup_cons in Hnodup as [Hfresh Hnodup].
    rewrite submit_batch_cons. apply elem_of_cons in Hin as [[= -> -> ->]|Hin].
    + rewrite submit_batch_other by done.
      rewrite (jobs_get_update _ _ _
                 (mkJob u queued 0 None None None None
                        (mkMeta (detectCategory f) fmt (Some batch)) t)); [done|].
      unfold jobs_get, jobs_has, newJob. simpl.
      rewrite bool_decide_eq_true_2 by set_solver. by rewrite lookup_insert_eq.
    + by apply IH.
Qed.

Lemma submit_batch_jobs_witness :
  jobs_get "j2"
    (submit_batch "b1" "pdf" [("j2", 1500, "/up/2-b.docx"); ("j3", 1501, "/up/3-c.png")]
       (one_job "/up/1-a.mp3" "wav"))
  = Some (mkJob "j2" queued 0 None (Some "/up/2-b.docx"%string) None None
                (mkMeta (detectCategory "/up/2-b.docx") "pdf" (Some "b1"%string)) 1500).
Proof.
  apply (submit_batch_jobs "b1" "pdf"
           [("j2", 1500, "/up/2-b.docx"); ("j3", 1501, "/up/3-c.png")]%string
           (one_job "/up/1-a.mp3" "wav")).
  - simpl. repeat constructor; set_solver.
  - set_solver.
Defined.

End BatchFacts.

(** ** Progress as the audio and archive converters report it *)
Section ProgressSources.
Import Router AudioConverter ArchiveConverter.

Lemma Math_round_mono (x y : Q) : (x <= y)%Q → Math_round x ≤ Math_round y.
Proof.
  intros Hxy. unfold Math_round. apply Qfloor_resp_le.
  apply Qplus_le_compat; [done|apply Qle_refl].
Qed.

Lemma Math_round_half_range (q : Q) :
  (0 <= q)%Q → (q <= 100)%Q → 0 ≤ Math_round (q * (1 # 2))%Q ≤ 50.
Proof.
  intros Hlo Hhi.
  assert (Math_round 0 = 0) as H0 by (by vm_compute).
  assert (Math_round (100 * (1 # 2)) = 50) as H50 by (by vm_compute).
  assert (0 <= q * (1 # 2))%Q as Hlo' by (apply Qmult_le_0_compat; [done|discriminate]).
  assert (q * (1 # 2) <= 100 * (1 # 2))%Q as Hhi'
    by (apply Qmult_le_compat_r; [done|discriminate]).
  apply Math_round_mono in Hlo', Hhi'. lia.
Qed.

Lemma half_mono (x y : Q) : (x <= y)%Q → (x * (1 # 2) <= y * (1 # 2))%Q.
Proof. intros Hxy. apply Qmult_le_compat_r; [done|discriminate]. Qed.

Lemma omap_reported_sorted (f : Q → Z) (l : list Q) :
  (∀ x y, (x <= y)%Q → f x ≤ f y) →
  StronglySorted Qle l → StronglySorted Z.le (omap (reported f) l).
Proof.
  intros Hf. induction 1 as [|x l Hl IH Hx]; simpl; [constructor|].
  unfold reported at 1. destruct (Qeq_bool x 0); [done|].
  constructor; [done|].
  apply Forall_forall. intros z [y [Hy Hz]]%list_elem_of_omap.
  unfold reported in Hz. destruct (Qeq_bool y 0); [done|]. injection Hz as <-.
  apply Hf. rewrite Forall_forall in Hx. by apply Hx.
Qed.

(** X23: Converting an archive reports progress that never goes backwards:
    when the percentages of 7z do not decrease within the extraction and
    within the compression and lie between 0 and 100, the values passed to
    [onProgress] are in non-decreasing order over the whole conversion,
    those of the extraction between 0 and 50 and those of the compression
    between 50 and 100. *)
Theorem convert_reports_monotone (extracting compressing : list Q) :
  StronglySorted Qle extracting → StronglySorted Qle compressing →
  Forall (λ q, 0 <= q ∧ q <= 100)%Q (extracting ++ compressing) →
  StronglySorted Z.le (convert_reports extracting compressing)
  ∧ Forall (λ z, 0 ≤ z ≤ 50) (omap (reported extract_report) extracting)
  ∧ Forall (λ z, 50 ≤ z ≤ 100) (omap (reported compress_report) compressing).
Proof.
  intros Hs1 Hs2 [Hr1 Hr2]%Forall_app.
  assert (Forall (λ z, 0 ≤ z ≤ 50) (omap (reported extract_report) extracting)) as H1.
  { apply Forall_forall. intros z [q [Hq Hz]]%list_elem_of_omap.
    unfold reported in Hz. destruct (Qeq_bool q 0); [done|]. injection Hz as <-.
    rewrite Forall_forall in Hr1. destruct (Hr1 _ Hq) as [Hlo Hhi].
    pose proof (Math_round_half_range q Hlo Hhi). unfold extract_report. lia. }
  assert (Forall (λ z, 50 ≤ z ≤ 100) (omap (reported compress_report) compressing)) as H2.
  { apply Forall_forall. intros z [q [Hq Hz]]%list_elem_of_omap.
    unfold reported in Hz. destruct (Qeq_bool q 0); [done|]. injection Hz as <-.
    rewrite Forall_forall in Hr2. destruct (Hr2 _ Hq) as [Hlo Hhi].
    pose proof (Math_round_half_range q Hlo Hhi). unfold compress_report. lia. }
  split_and!; [|done..].
  unfold convert_reports. apply StronglySorted_app_2.
  - intros z1 z2 Hz1 Hz2. rewrite Forall_forall in H1, H2.
    specialize (H1 _ Hz1). specialize (H2 _ Hz2). lia.
  - apply omap_reported_sorted; [|done]. intros x y Hxy. unfold extract_report.
    pose proof (Math_round_mono _ _ (half_mono x y Hxy)). lia.
  - apply omap_reported_sorted; [|done]. intros x y Hxy. unfold compress_report.
    pose proof (Math_round_mono _ _ (half_mono x y Hxy)). lia.
Qed.

Lemma convert_reports_monotone_witness :
  StronglySorted Z.le (convert_reports [0; 30; 99]%Q [1; 100]%Q).
Proof.
  apply (convert_reports_monotone [0; 30; 99]%Q [1; 100]%Q).
  - repeat constructor; by vm_compute.
  - repeat constructor; by vm_compute.
  - repeat constructor; by vm_compute.
Defined.

Lemma on_progress_step duration st ev :
  on_progress duration st ev = st
  ∨ ∃ p, 0 ≤ p ≤ 100 ∧ p ≠ lastPercent st
         ∧ on_progress duration st ev = mkForwarder p (forwarded st ++ [p]).
Proof.
  unfold on_progress.
  repeat case_match; simplify_eq; auto; right;
    (eexists; (split; [|split; [|reflexivity]]); [lia|by eapply bool_decide_eq_true_1]).
Qed.

(** X24: The audio converter forwards a percentage only when it differs from
    the last one it forwarded, starting from 0: whatever events ffmpeg
    raises, every forwarded value is a whole number between 0 and 100, no
    two consecutive forwarded values are equal, and the first one is not
    0. *)
Theorem on_progress_forwards_changes (duration : option Q) (evs : list ProgressEvent) :
  let fw := forwarded (fold_left (on_progress duration) evs forwarder_start) in
  Forall (λ p, 0 ≤ p ≤ 100) fw
  ∧ (∀ i a b, fw !! i = Some a → fw !! S i = Some b → a ≠ b)
  ∧ head fw ≠ Some 0.
Proof.
  intros fw. subst fw.
  assert (∀ st,
            lastPercent st = default 0 (last (forwarded st)) →
            Forall (λ p, 0 ≤ p ≤ 100) (forwarded st) →
            (∀ i a b, forwarded st !! i = Some a → forwarded st !! S i = Some b → a ≠ b) →
            head (forwarded st) ≠ Some 0 →
            let st' := fold_left (on_progress duration) evs st in
            Forall (λ p, 0 ≤ p ≤ 100) (forwarded st')
            ∧ (∀ i a b, forwarded st' !! i = Some a → forwarded st' !! S i = Some b → a ≠ b)
            ∧ head (forwarded st') ≠ Some 0) as Hgen.
  { induction evs as [|ev evs IH]; intros st Hlast Hrange Hadj Hhead; simpl; [done|].
    destruct (on_progress_step duration st ev) as [->|(p & Hp & Hne & ->)];
      [by apply IH|].
    apply IH; simpl.
    - by rewrite last_snoc.
    - apply Forall_app. split; [done|]. by constructor.
    - intros i a b Ha Hb.
      destruct (decide (S i < length (forwarded st))%nat) as [Hlt|Hge].
      + rewrite lookup_app_l in Ha, Hb by lia. by eapply Hadj.
      + destruct (decide (S i = length (forwarded st))) as [Heq|Hneq].
        * rewrite lookup_app_l in Ha by lia.
          rewrite lookup_app_r, Heq, Nat.sub_diag in Hb by lia. simpl in Hb.
          injection Hb as <-. rewrite Hlast, last_lookup, <- Heq in Hne. simpl in Hne.
          rewrite Ha in Hne. simpl in Hne. congruence.
        * rewrite lookup_app_r in Hb by lia.
          destruct (S i - length (forwarded st))%nat as [|k] eqn:E; [lia|].
          by destruct k.
    - rewrite Hlast in Hne.
      destruct (forwarded st) as [|x l]; simpl in *; [congruence|done]. }
  apply Hgen; simpl; done.
Qed.

End ProgressSources.

(** ** Options and format tables of the image, font and audio converters *)
Section ConverterOptions.
Import JsString Formats Router ImageConverter ImageOps FontConverter AudioConverter.

(** X25: [pickNumber] clamps: with both bounds given and in order, a finite
    number is brought into the bounds and left alone when it is within
    them already, and picking again changes nothing; what is no finite
    number gives [undefined].  With a lower bound only, as for a width or
    a height, the result is at least the bound. *)
Theorem pickNumber_clamps (n : option Q) (lo hi : Q) :
  (lo <= hi)%Q →
  match pickNumber n (Some lo) (Some hi) with
  | None => n = None
  | Some r =>
      ∃ v, n = Some v ∧ (lo <= r)%Q ∧ (r <= hi)%Q
           ∧ ((lo <= v)%Q → (v <= hi)%Q → r = v)
           ∧ pickNumber (Some r) (Some lo) (Some hi) = Some r
           ∧ ∃ r', pickNumber n (Some lo) None = Some r' ∧ (lo <= r')%Q
  end.
Proof.
  intros Hbounds. destruct n as [v|]; [|done]. simpl.
  destruct (Qlt_le_dec v lo) as [Hlt|Hge].
  - exists v. split_and!; [done|lra|done|intros; lra| |].
    + simpl. destruct (Qlt_le_dec lo lo); [done|].
      destruct (Qlt_le_dec hi lo); [lra|done].
    + exists lo. split; [done|lra].
  - destruct (Qlt_le_dec hi v) as [Hgt|Hle].
    + exists v. split_and!; [done|done|lra|intros; lra| |].
      * simpl. destruct (Qlt_le_dec hi lo); [lra|].
        destruct (Qlt_le_dec hi hi); [lra|done].
      * exists v. split; [done|lra].
    + exists v. split_and!; [done|done|done|done| |].
      * simpl. destruct (Qlt_le_dec v lo); [lra|].
        destruct (Qlt_le_dec hi v); [lra|done].
      * exists v. split; [done|lra].
Qed.

Lemma pickNumber_clamps_witness :
  match pickNumber (Some 250%Q) (Some 1%Q) (Some 100%Q) with
  | None => Some 250%Q = None
  | Some r =>
      ∃ v, Some 250%Q = Some v ∧ (1 <= r)%Q ∧ (r <= 100)%Q
           ∧ ((1 <= v)%Q → (v <= 100)%Q → r = v)
           ∧ pickNumber (Some r) (Some 1%Q) (Some 100%Q) = Some r
           ∧ ∃ r', pickNumber (Some 250%Q) (Some 1%Q) None = Some r' ∧ (1 <= r')%Q
  end.
Proof. apply (pickNumber_clamps (Some 250%Q) 1%Q 100%Q). by vm_compute. Defined.

Lemma fold_set_add_fresh (l acc : list Z) :
  NoDup (acc ++ l) →
  fold_left (λ set ch, DocumentConverter.set_add ch set) l acc = acc ++ l.
Proof.
  revert acc. induction l as [|c l IH]; intros acc Hnd; simpl.
  - by rewrite app_nil_r.
  - unfold DocumentConverter.set_add at 2.
    rewrite decide_False.
    + rewrite IH; rewrite <- app_assoc; done.
    + apply NoDup_app in Hnd as (_ & Hdisj & _). intros Hin.
      apply (Hdisj _ Hin). by left.
Qed.

Lemma fold_set_add_spec (l acc : list Z) :
  NoDup acc →
  let r := fold_left (λ set ch, DocumentConverter.set_add ch set) l acc in
  NoDup r ∧ (∀ c, c ∈ r ↔ c ∈ acc ∨ c ∈ l) ∧ (acc ≠ [] → head r = head acc).
Proof.
  revert acc. induction l as [|c l IH]; intros acc Hnd; simpl.
  - split_and!; [done| |done]. intros c. rewrite elem_of_nil. naive_solver.
  - destruct (IH (DocumentConverter.set_add c acc)) as (Hnd' & Hel & Hhd);
      [by apply set_add_NoDup|].
    split_and!; [done| |].
    + intros x. rewrite Hel, set_add_elem, elem_of_cons. naive_solver.
    + intros Hne. rewrite Hhd.
      * unfold DocumentConverter.set_add. case_decide; [done|]. by destruct acc.
      * unfold DocumentConverter.set_add. case_decide; [done|]. by destruct acc.
Qed.

(** X26: The code points that a font is subset to: [null] for the empty
    string; otherwise the code points of the string, each once, starting
    with the first of the string - and a list that was obtained this way
    is mapped to itself. *)
Theorem toSubsetUnicodeList_distinct (chars : list Z) :
  match toSubsetUnicodeList chars with
  | None => chars = []
  | Some l =>
      NoDup l ∧ (∀ c, c ∈ l ↔ c ∈ chars) ∧ head l = head chars
      ∧ toSubsetUnicodeList l = Some l
  end.
Proof.
  destruct chars as [|c chars]; [done|]. simpl.
  destruct (fold_set_add_spec chars (DocumentConverter.set_add c []))
    as (Hnd & Hel & Hhd); [by apply set_add_NoDup, NoDup_nil|].
  split_and!; [done| | |].
  - intros x. rewrite Hel, set_add_elem, elem_of_cons, elem_of_nil. naive_solver.
  - by rewrite Hhd.
  - match goal with |- toSubsetUnicodeList ?l = _ => remember l as r eqn:Hr end.
    assert (r ≠ []) as Hne.
    { intros ->. specialize (Hel c). rewrite set_add_elem, elem_of_nil in Hel.
      naive_solver. }
    unfold toSubsetUnicodeList. destruct r as [|x r]; [done|].
    f_equal. by apply (fold_set_add_fresh (x :: r) []).
Qed.

(** X27: The encoder is [copy] exactly for the formats outside the table of
    output formats: every format that [convertAudio] lets through is
    encoded with a codec of its own. *)
Theorem getCodecForFormat_copy (format : string) :
  getCodecForFormat format = "copy"%string
  ↔ string_of_list_ascii (toLowerCase (list_ascii_of_string format))
    ∉ audio_SUPPORTED_OUTPUTS.
Proof.
  unfold getCodecForFormat, audio_SUPPORTED_OUTPUTS.
  generalize (string_of_list_ascii (toLowerCase (list_ascii_of_string format))).
  intros f. rewrite elem_of_list_to_set, !elem_of_cons, elem_of_nil.
  repeat (case_bool_decide; simpl); split; try done; naive_solver.
Qed.

(** X28: The font type handed to fonteditor-core is always one of the four
    output formats; it is the format itself for each of them, and [ttf]
    for every other, [eot] included, which is among the accepted input
    formats. *)
Theorem fonteditorTypeForExt_supported (format : string) :
  let f := string_of_list_ascii (toLowerCase (list_ascii_of_string format)) in
  fonteditorTypeForExt format ∈ font_SUPPORTED_OUTPUTS
  ∧ (f ∈ font_SUPPORTED_OUTPUTS → fonteditorTypeForExt format = f)
  ∧ (f ∉ font_SUPPORTED_OUTPUTS → fonteditorTypeForExt format = "ttf"%string)
  ∧ "eot"%string ∈ font_SUPPORTED_INPUTS ∧ "eot"%string ∉ font_SUPPORTED_OUTPUTS.
Proof.
  unfold fonteditorTypeForExt, font_SUPPORTED_OUTPUTS.
  generalize (string_of_list_ascii (toLowerCase (list_ascii_of_string format))).
  intros f. cbv zeta. rewrite !elem_of_list_to_set, !elem_of_cons, !elem_of_nil.
  split_and!.
  - repeat case_bool_decide; simpl; naive_solver.
  - repeat case_bool_decide; simpl; naive_solver.
  - repeat case_bool_decide; simpl; naive_solver.
  - by vm_compute.
  - naive_solver.
Qed.

(** X29: The router and the converters read the extension the same way: a
    file that the router files as an image passes the image converter's
    check of the input format, and one filed as a document the document
    converter's.  Whether the conversion is accepted then depends on the
    output format alone. *)
Theorem routed_input_is_accepted (filePath fmt : string) :
  (detectCategory filePath = image →
     (validateFormats [filePath] fmt = Ok ()
      ↔ normalizeFormat fmt ∈ image_SUPPORTED_OUTPUTS))
  ∧ (detectCategory filePath = document →
     (DocumentOps.validateIO [filePath] fmt = None
      ↔ DocumentOps.normalize fmt ∈ DocumentOps.document_SUPPORTED_OUTPUTS)).
Proof.
  split; intros Hc.
  - assert (NodePath.ext filePath ∈ image_SUPPORTED_INPUTS) as Hext.
    { revert Hc. unfold detectCategory, has, ext.
      repeat case_bool_decide; done. }
    unfold validateFormats. simpl. rewrite (bool_decide_eq_true_2 _ Hext).
    case_bool_decide; naive_solver.
  - assert (NodePath.ext filePath ∈ document_SUPPORTED_INPUTS) as Hext.
    { revert Hc. unfold detectCategory, has, ext.
      repeat case_bool_decide; done. }
    unfold DocumentOps.validateIO, DocumentOps.normalizeExt. simpl.
    rewrite (bool_decide_eq_true_2 _ Hext). simpl.
    case_bool_decide; naive_solver.
Qed.

Lemma routed_input_is_accepted_witness :
  validateFormats ["/up/1-a.HEIC"%string] " WebP " = Ok ()
  ↔ normalizeFormat " WebP " ∈ image_SUPPORTED_OUTPUTS.
Proof.
  apply (routed_input_is_accepted "/up/1-a.HEIC" " WebP "). by vm_compute.
Defined.

End ConverterOptions.
